(** * Shootmaster: the combat simulation core

    A shallow embedding of
      - src/client/game/GunController.ts  (module [Gun]),
      - src/client/game/NPCSystem.ts      (module [NPCSystem]),
      - src/client/game/GameState.tsx     (module [Game]),
    followed by the properties of the specification proved, or refuted,
    on that embedding.

    Conventions of the embedding.
      - A JavaScript [number] is idealised as a real number: [+ - * /],
        [Math.sqrt], [Math.min] and [Math.max] are the operations of [R],
        and [<], [<=], [>] are decided on [R].  Rounding is outside the
        model, so the properties proved are those that do not depend on
        it: comparisons against thresholds, clamps, bounds, single
        updates, and what is written or left alone.  Where the code
        meets a value that is not a real number, the model says so: the
        quotient [1000 / fireRate] at a fire rate of 0 is Infinity (see
        [cooling_down]), and a stat that reaches the factory from
        outside may be NaN, missing or infinite (see [Stat]).
      - [Date.now()] is an input: every method that reads the clock takes
        the value it reads as an argument, one argument per read.
      - An optional callback is a flag (registered or not); calling a
        registered callback appends a signal to the trace of the call.
      - Objects that are shared by reference (position objects, patrol
        route arrays) live in an explicit heap; objects that never escape
        the class that owns them are records passed by value. *)

From Stdlib Require Import Reals Lra Lia.
From Stdlib Require Import DecimalString.
From stdpp Require Import base decidable option list gmap strings.

Open Scope R_scope.

(** ** JavaScript numbers and completions *)

Abbreviation number := R.

#[global] Instance Rle_decision (a b : R) : Decision (a <= b) := Rle_dec a b.
#[global] Instance Rlt_decision (a b : R) : Decision (a < b) := Rlt_dec a b.
#[global] Instance Rgt_decision (a b : R) : Decision (a > b) := Rlt_dec b a.
#[global] Instance Req_decision : EqDecision R := Req_dec_T.
#[global] Instance gt_decision (a b : nat) : Decision (a > b)%nat :=
  lt_dec b a.

(** How a call ends: it returns a value, or it throws.  Either way the
    state reached at that point is kept. *)
Inductive Completion (S A : Type) : Type :=
  | Returns (s : S) (a : A)
  | Throws (s : S) (error : string).
Arguments Returns {S A} s a.
Arguments Throws {S A} s error.

Definition final {S A} (c : Completion S A) : S :=
  match c with
  | Returns s _ => s
  | Throws s _ => s
  end.

Definition returns {S A} (c : Completion S A) : bool :=
  match c with
  | Returns _ _ => true
  | Throws _ _ => false
  end.

(** ** GunController.ts *)

Module Gun.

Inductive GunType := pistol | rifle | shotgun | sniper.

Record GunStats := mkGunStats {
  damage : number;
  fireRate : number;
  recoil : number;
  spread : number;
  magazineSize : number;
  reloadTime : number;
}.

Record GunConfig := mkGunConfig {
  name : string;
  type : GunType;
  stats : GunStats;
}.

(** The three optional callbacks, as the signals their calls leave in
    the trace. *)
Inductive Signal := OnFire | OnReload | OnEmpty.

#[global] Instance Signal_eq_dec : EqDecision Signal.
Proof. solve_decision. Defined.

(** [this.onX?.()]: the callback runs when it is registered. *)
Definition invoke (registered : bool) (s : Signal) : list Signal :=
  if registered then [s] else [].

Record GunController := mkGunController {
  config : GunConfig;
  currentAmmo : number;
  isReloading : bool;
  lastFireTime : number;
  onFire : bool;
  onReload : bool;
  onEmpty : bool;
}.

(** [new GunController(config)] *)
Definition new_GunController (cfg : GunConfig) : GunController :=
  {| config := cfg;
     currentAmmo := magazineSize (stats cfg);
     isReloading := false;
     lastFireTime := 0;
     onFire := false;
     onReload := false;
     onEmpty := false |}.

Definition setCallbacks (f r e : bool) (this : GunController) : GunController :=
  {| config := config this;
     currentAmmo := currentAmmo this;
     isReloading := isReloading this;
     lastFireTime := lastFireTime this;
     onFire := f;
     onReload := r;
     onEmpty := e |}.

(** Field assignments [this.f = v]. *)
Definition set_currentAmmo (v : number) (this : GunController) : GunController :=
  {| config := config this;
     currentAmmo := v;
     isReloading := isReloading this;
     lastFireTime := lastFireTime this;
     onFire := onFire this;
     onReload := onReload this;
     onEmpty := onEmpty this |}.

Definition set_isReloading (v : bool) (this : GunController) : GunController :=
  {| config := config this;
     currentAmmo := currentAmmo this;
     isReloading := v;
     lastFireTime := lastFireTime this;
     onFire := onFire this;
     onReload := onReload this;
     onEmpty := onEmpty this |}.

Definition set_lastFireTime (v : number) (this : GunController) : GunController :=
  {| config := config this;
     currentAmmo := currentAmmo this;
     isReloading := isReloading this;
     lastFireTime := v;
     onFire := onFire this;
     onReload := onReload this;
     onEmpty := onEmpty this |}.

(** What a method call leaves behind: the object after the call, the
    callbacks it ran, and the value it returned. *)
Record Call (A : Type) := mkCall {
  after : GunController;
  emitted : list Signal;
  returned : A;
}.
Arguments mkCall {A} after emitted returned.
Arguments after {A} c.
Arguments emitted {A} c.
Arguments returned {A} c.

(** [1000 / this.config.stats.fireRate], for a fire rate other than 0. *)
Definition fireInterval (this : GunController) : number :=
  1000 / fireRate (stats (config this)).

(** The cooldown test [now - this.lastFireTime < fireInterval].  At a
    fire rate of 0 the quotient of the code is Infinity, and the test
    holds whatever the two times are: such a gun never leaves its
    cooldown. *)
Definition cooling_down (now : number) (this : GunController) : Prop :=
  fireRate (stats (config this)) = 0
  \/ now - lastFireTime this < fireInterval this.

#[global] Instance cooling_down_dec (now : number) (this : GunController) :
  Decision (cooling_down now this).
Proof. unfold cooling_down. apply _. Defined.

(** [fire()], with [now] the value of [Date.now()]. *)
Definition fire (now : number) (this : GunController) : Call bool :=
  if isReloading this then mkCall this [] false
  else if bool_decide (cooling_down now this) then
    mkCall this [] false
  else if bool_decide (currentAmmo this <= 0) then
    mkCall this (invoke (onEmpty this) OnEmpty) false
  else
    mkCall (set_lastFireTime now (set_currentAmmo (currentAmmo this - 1) this))
           (invoke (onFire this) OnFire)
           true.

(** The promise [reload()] returns: already resolved, or resolved by the
    callback given to [setTimeout] with the stated delay. *)
Inductive ReloadPromise :=
  | Resolved
  | AfterTimeout (delay : number).

(** The synchronous part of [reload()]. *)
Definition reload (this : GunController) : Call ReloadPromise :=
  if isReloading this then mkCall this [] Resolved
  else
    mkCall (set_isReloading true this)
           (invoke (onReload this) OnReload)
           (AfterTimeout (reloadTime (stats (config this)))).

(** The body of the [setTimeout] callback of [reload()]. *)
Definition reloadTimeout (this : GunController) : GunController :=
  set_isReloading false
    (set_currentAmmo (magazineSize (stats (config this))) this).

Definition getAmmo (this : GunController) : number := currentAmmo this.
Definition getMagazineSize (this : GunController) : number :=
  magazineSize (stats (config this)).

(** The configuration of the rifle preset, as the module's table of
    presets is created. *)
Definition rifle_config : GunConfig :=
  mkGunConfig "M4A1 Rifle" rifle (mkGunStats 35 8 0.4 0.08 30 2000).

(** *** The gun on the event loop

    [reload()] spans real time, so the gun is run on a small event loop:
    a clock, the gun, and the due times of the pending [setTimeout]
    callbacks (all of them reload completions). *)

Record Runtime := mkRuntime {
  clock : number;
  gun : GunController;
  timeouts : list number;
}.

Inductive Event :=
  | CallFire
  | CallReload
  | Advance (t : number).

Definition setTimeout (p : ReloadPromise) (now : number) (q : list number)
  : list number :=
  match p with
  | Resolved => q
  | AfterTimeout delay => q ++ [now + delay]
  end.

(** The clock reaches [t]: every callback due by then runs. *)
Definition advance (t : number) (rt : Runtime) : Runtime :=
  {| clock := t;
     gun := foldr (fun _ g => reloadTimeout g) (gun rt)
                  (filter (fun due => due <= t) (timeouts rt));
     timeouts := filter (fun due => t < due) (timeouts rt) |}.

Definition step (rt : Runtime) (e : Event) : Runtime :=
  match e with
  | CallFire =>
      {| clock := clock rt;
         gun := after (fire (clock rt) (gun rt));
         timeouts := timeouts rt |}
  | CallReload =>
      let r := reload (gun rt) in
      {| clock := clock rt;
         gun := after r;
         timeouts := setTimeout (returned r) (clock rt) (timeouts rt) |}
  | Advance t => advance t rt
  end.

Definition run (rt : Runtime) (es : list Event) : Runtime :=
  foldl step rt es.

(** An event that keeps the clock strictly before [due]. *)
Definition before (due : number) (e : Event) : Prop :=
  match e with
  | Advance t => t < due
  | _ => True
  end.

(** *** The rest of GunController.ts: damage and recoil *)

(** [Math.floor], and [Math.round], which rounds to the nearest integer
    with ties going up. *)
Definition Math_floor (v : number) : number := IZR (Zfloor v).
Definition Math_round (v : number) : number := IZR (Zfloor (v + 0.5)).

(** [calculateDamage()], with [rnd] the value of [Math.random()]. *)
Definition calculateDamage (rnd : number) (this : GunController) : number :=
  let baseDamage := damage (stats (config this)) in
  let spreadFactor := 1 - rnd * spread (stats (config this)) in
  Math_round (baseDamage * spreadFactor).

(** [getRecoilOffset()], with [rnd1] and [rnd2] the values of its two
    calls of [Math.random()], in the order they are made; the result is
    the pair of [x] and [y]. *)
Definition getRecoilOffset (rnd1 rnd2 : number) (this : GunController)
  : number * number :=
  let recoil := recoil (stats (config this)) in
  ((rnd1 - 0.5) * recoil * 10, - rnd2 * recoil * 15).

(** *** The factory

    The factory is where stats come in from outside (a parsed document,
    the output of a generator), so its input is modelled with every
    value a [number] can hold. *)

(** A stat as the factory receives it: a number, an infinity, or NaN.
    A stat that is missing, or there with the value [undefined], is
    turned into NaN by [Math.min] and by [Math.floor]; it is [NaN]
    here. *)
Inductive Stat :=
  | Num (v : number)
  | PlusInfinity
  | MinusInfinity
  | NaN.

(** [Math.min(a, s)] and [Math.max(a, s)] for a number [a]. *)
Definition stat_min (a : number) (s : Stat) : Stat :=
  match s with
  | Num v => Num (Rmin a v)
  | PlusInfinity => Num a
  | MinusInfinity => MinusInfinity
  | NaN => NaN
  end.

Definition stat_max (a : number) (s : Stat) : Stat :=
  match s with
  | Num v => Num (Rmax a v)
  | PlusInfinity => PlusInfinity
  | MinusInfinity => Num a
  | NaN => NaN
  end.

(** [Math.floor(s)] *)
Definition stat_floor (s : Stat) : Stat :=
  match s with
  | Num v => Num (Math_floor v)
  | PlusInfinity => PlusInfinity
  | MinusInfinity => MinusInfinity
  | NaN => NaN
  end.

Definition clamp (value : Stat) (min max : number) : Stat :=
  stat_max min (stat_min max value).

(** A configuration as the factory receives it.  The name and the type
    may be missing. *)
Record JsonStats := mkJsonStats {
  json_damage : Stat;
  json_fireRate : Stat;
  json_recoil : Stat;
  json_spread : Stat;
  json_magazineSize : Stat;
  json_reloadTime : Stat;
}.

Record JsonConfig := mkJsonConfig {
  json_name : option string;
  json_type : option GunType;
  json_stats : JsonStats;
}.

(** [GunFactory.validateConfig].  [config.name || "Unknown Weapon"]
    replaces a missing name and the empty string, the one falsy string;
    [config.type || "rifle"] replaces a missing type, the four values
    of the type being non-empty strings. *)
Definition validateConfig (cfg : JsonConfig) : JsonConfig :=
  {| json_name :=
       Some (match json_name cfg with
             | Some n =>
                 if decide (n = ""%string) then "Unknown Weapon"%string
                 else n
             | None => "Unknown Weapon"%string
             end);
     json_type := Some (default rifle (json_type cfg));
     json_stats :=
       {| json_damage := clamp (json_damage (json_stats cfg)) 1 200;
          json_fireRate := clamp (json_fireRate (json_stats cfg)) 0.1 20;
          json_recoil := clamp (json_recoil (json_stats cfg)) 0 1;
          json_spread := clamp (json_spread (json_stats cfg)) 0 1;
          json_magazineSize :=
            clamp (stat_floor (json_magazineSize (json_stats cfg))) 1 100;
          json_reloadTime :=
            clamp (json_reloadTime (json_stats cfg)) 500 5000 |} |}.

(** A [GunController] holds numbers.  A configuration whose name, type
    and stats are all there and all numbers is a [GunConfig]; one with a
    NaN stat has no counterpart, and the gun the code builds from it
    (its ammo or its fire interval NaN) is outside the model: [None]. *)
Definition to_number (s : Stat) : option number :=
  match s with
  | Num v => Some v
  | _ => None
  end.

Definition to_GunStats (s : JsonStats) : option GunStats :=
  d ← to_number (json_damage s);
  f ← to_number (json_fireRate s);
  r ← to_number (json_recoil s);
  sp ← to_number (json_spread s);
  m ← to_number (json_magazineSize s);
  rt ← to_number (json_reloadTime s);
  Some (mkGunStats d f r sp m rt).

Definition to_GunConfig (cfg : JsonConfig) : option GunConfig :=
  n ← json_name cfg;
  t ← json_type cfg;
  s ← to_GunStats (json_stats cfg);
  Some (mkGunConfig n t s).

(** [GunFactory.createFromJSON]: [None] when a validated stat is NaN. *)
Definition createFromJSON (jsonConfig : JsonConfig) : option GunController :=
  new_GunController <$> to_GunConfig (validateConfig jsonConfig).



(** What [clamp] makes of a stat: NaN stays NaN, and every other value
    ends as a number from [lo] to [hi]. *)
Definition clamped (lo hi : number) (input output : Stat) : Prop :=
  match input with
  | NaN => output = NaN
  | _ => exists v, output = Num v /\ lo <= v <= hi
  end.

(** The same for the magazine size, which is floored first: a whole
    number of rounds from 1 to 100. *)
Definition clamped_count (input output : Stat) : Prop :=
  match input with
  | NaN => output = NaN
  | _ => exists n : nat, output = Num (INR n) /\ (1 <= n <= 100)%nat
  end.

(** One of the six stats is NaN. *)
Definition has_NaN (s : JsonStats) : Prop :=
  json_damage s = NaN \/ json_fireRate s = NaN \/ json_recoil s = NaN
  \/ json_spread s = NaN \/ json_magazineSize s = NaN
  \/ json_reloadTime s = NaN.

(** Successive calls of [fire()] at the given times: the gun after the
    last call, and what each call returned. *)
Fixpoint fireMany (times : list number) (this : GunController)
  : GunController * list bool :=
  match times with
  | [] => (this, [])
  | now :: rest =>
      let c := fire now this in
      let r := fireMany rest (after c) in
      (fst r, returned c :: snd r)
  end.

(** Times of call that are each at least [interval] after the one
    before, the first of them after [last]. *)
Fixpoint spaced (interval last : number) (times : list number) : Prop :=
  match times with
  | [] => True
  | t :: rest => interval <= t - last /\ spaced interval t rest
  end.

(** A runtime with a reload in flight has the one completion pending;
    one with no reload in flight has none. *)
Definition timers_match (rt : Runtime) : Prop :=
  if isReloading (gun rt) then exists due, timeouts rt = [due]
  else timeouts rt = [].

(** The rifle with two rounds left. *)
Definition two_round_gun : GunController :=
  set_currentAmmo 2 (new_GunController rifle_config).


End Gun.

(** ** NPCSystem.ts *)

Module NPCSystem.

Inductive NPCState := idle | patrol | aggressive.

#[global] Instance NPCState_eq_dec : EqDecision NPCState.
Proof. solve_decision. Defined.

(** A position object, as a value. *)
Record NPCPosition := mkPosition {
  x : number;
  y : number;
}.

(** Object identities.  Position objects and arrays of position objects
    are the two kinds of object that are shared by reference. *)
Abbreviation ref := positive.

Record Heap := mkHeap {
  positions : gmap positive NPCPosition;
  arrays : gmap positive (list positive);
}.

(** Reading through a reference.  A reference held by a running program
    always points at an object; the defaults are never reached on a heap
    that holds every reference in use. *)
Definition deref (h : Heap) (r : ref) : NPCPosition :=
  default (mkPosition 0 0) (positions h !! r).

Definition deref_array (h : Heap) (a : ref) : list ref :=
  default [] (arrays h !! a).

(** [r.x = ...; r.y = ...] on the position object [r]. *)
Definition write_position (r : ref) (p : NPCPosition) (h : Heap) : Heap :=
  {| positions := <[r := p]> (positions h); arrays := arrays h |}.

Definition write_array (a : ref) (elems : list ref) (h : Heap) : Heap :=
  {| positions := positions h; arrays := <[a := elems]> (arrays h) |}.

(** An object literal: a new object, at an identity not in use. *)
Definition alloc_position (p : NPCPosition) (h : Heap) : Heap * ref :=
  let r := fresh (dom (positions h)) in
  (write_position r p h, r).

Definition alloc_array (elems : list ref) (h : Heap) : Heap * ref :=
  let a := fresh (dom (arrays h)) in
  (write_array a elems h, a).

Record NPC := mkNPC {
  id : string;
  name : string;
  state : NPCState;
  position : ref;
  health : number;
  maxHealth : number;
  detectionRange : number;
  attackRange : number;
  speed : number;
  patrolPoints : option ref;
  currentPatrolIndex : nat;
}.

Record NPCConfig := mkNPCConfig {
  config_name : string;
  config_health : option number;
  config_detectionRange : option number;
  config_attackRange : option number;
  config_speed : option number;
  config_patrolPoints : option ref;
}.

Definition DEFAULT_health : number := 100.
Definition DEFAULT_detectionRange : number := 150.
Definition DEFAULT_attackRange : number := 50.
Definition DEFAULT_speed : number := 2.

(** Truthiness of a value of type [NPCPosition[] | undefined]: every
    array is an object, and every object is truthy, the empty array
    included; only [undefined] is falsy. *)
Definition truthy (patrolPoints : option ref) : bool :=
  match patrolPoints with
  | Some _ => true
  | None => false
  end.

Record NPCController := mkNPCController {
  npc : NPC;
  stateTransitionTime : number;
  lastUpdateTime : number;
}.

(** [new NPCController(id, position, config)], with [now] the value of
    [Date.now()].  [{ ...position }] is a new object holding the
    coordinates of the argument; [config.patrolPoints] is stored as the
    reference it is. *)
Definition new_NPCController (now : number) (i : string)
    (pos : NPCPosition) (config : NPCConfig) (h : Heap)
  : Heap * NPCController :=
  let (h', r) := alloc_position pos h in
  (h',
   {| npc :=
        {| id := i;
           name := config_name config;
           state := if truthy (config_patrolPoints config) then patrol else idle;
           position := r;
           health := default DEFAULT_health (config_health config);
           maxHealth := default DEFAULT_health (config_health config);
           detectionRange :=
             default DEFAULT_detectionRange (config_detectionRange config);
           attackRange := default DEFAULT_attackRange (config_attackRange config);
           speed := default DEFAULT_speed (config_speed config);
           patrolPoints := config_patrolPoints config;
           currentPatrolIndex := 0%nat |};
      stateTransitionTime := 0;
      lastUpdateTime := now |}).

(** Field assignments on [this.npc] and on [this]. *)
Definition set_state (v : NPCState) (n : NPC) : NPC :=
  {| id := id n; name := name n; state := v; position := position n;
     health := health n; maxHealth := maxHealth n;
     detectionRange := detectionRange n; attackRange := attackRange n;
     speed := speed n; patrolPoints := patrolPoints n;
     currentPatrolIndex := currentPatrolIndex n |}.

Definition set_health (v : number) (n : NPC) : NPC :=
  {| id := id n; name := name n; state := state n; position := position n;
     health := v; maxHealth := maxHealth n;
     detectionRange := detectionRange n; attackRange := attackRange n;
     speed := speed n; patrolPoints := patrolPoints n;
     currentPatrolIndex := currentPatrolIndex n |}.

Definition set_currentPatrolIndex (v : nat) (n : NPC) : NPC :=
  {| id := id n; name := name n; state := state n; position := position n;
     health := health n; maxHealth := maxHealth n;
     detectionRange := detectionRange n; attackRange := attackRange n;
     speed := speed n; patrolPoints := patrolPoints n;
     currentPatrolIndex := v |}.

Definition set_npc (n : NPC) (this : NPCController) : NPCController :=
  {| npc := n;
     stateTransitionTime := stateTransitionTime this;
     lastUpdateTime := lastUpdateTime this |}.

Definition set_lastUpdateTime (v : number) (this : NPCController)
  : NPCController :=
  {| npc := npc this;
     stateTransitionTime := stateTransitionTime this;
     lastUpdateTime := v |}.

Definition getDistanceTo (h : Heap) (this : NPCController)
    (target : NPCPosition) : number :=
  let p := deref h (position (npc this)) in
  let dx := x target - x p in
  let dy := y target - y p in
  sqrt (dx * dx + dy * dy).

(** [transitionTo(newState)], with [tnow] the value its [Date.now()]
    reads. *)
Definition transitionTo (tnow : number) (newState : NPCState)
    (this : NPCController) : NPCController :=
  if decide (state (npc this) ≠ newState) then
    {| npc := set_state newState (npc this);
       stateTransitionTime := tnow;
       lastUpdateTime := lastUpdateTime this |}
  else this.

Definition moveTowards (target : NPCPosition) (deltaTime : number)
    (this : NPCController) (h : Heap) : Heap :=
  let p := deref h (position (npc this)) in
  let dx := x target - x p in
  let dy := y target - y p in
  let distance := sqrt (dx * dx + dy * dy) in
  if bool_decide (distance > 0) then
    let moveDistance := speed (npc this) * deltaTime * 60 in
    let ratio := Rmin (moveDistance / distance) 1 in
    write_position (position (npc this))
      {| x := x p + dx * ratio; y := y p + dy * ratio |} h
  else h.

Definition handleIdleState (tnow distanceToPlayer : number)
    (this : NPCController) : NPCController :=
  if bool_decide (distanceToPlayer <= detectionRange (npc this)) then
    transitionTo tnow aggressive this
  else this.

(** Reading [patrolPoints[currentPatrolIndex]] past the end of the array
    gives [undefined], and [getDistanceTo(undefined)] throws on
    [target.x]. *)
Definition handlePatrolState (tnow distanceToPlayer deltaTime : number)
    (this : NPCController) (h : Heap)
  : Completion (Heap * NPCController) unit :=
  if bool_decide (distanceToPlayer <= detectionRange (npc this)) then
    Returns (h, transitionTo tnow aggressive this) tt
  else
    match patrolPoints (npc this) with
    | Some a =>
        let route := deref_array h a in
        if bool_decide (length route > 0)%nat then
          match route !! currentPatrolIndex (npc this) with
          | Some t =>
              let targetPoint := deref h t in
              let distanceToTarget := getDistanceTo h this targetPoint in
              if bool_decide (distanceToTarget < 5) then
                Returns
                  (h,
                   set_npc
                     (set_currentPatrolIndex
                        ((currentPatrolIndex (npc this) + 1) mod length route)
                        (npc this))
                     this)
                  tt
              else Returns (moveTowards targetPoint deltaTime this h, this) tt
          | None =>
              Throws (h, this)
                "TypeError: Cannot read properties of undefined (reading 'x')"
          end
        else Returns (h, this) tt
    | None => Returns (h, this) tt
    end.

Definition handleAggressiveState (tnow : number)
    (playerPosition : NPCPosition) (distanceToPlayer deltaTime : number)
    (this : NPCController) (h : Heap) : Heap * NPCController :=
  if bool_decide (distanceToPlayer > detectionRange (npc this) * 1.5) then
    (h,
     transitionTo tnow
       (if truthy (patrolPoints (npc this)) then patrol else idle) this)
  else if bool_decide (distanceToPlayer > attackRange (npc this)) then
    (moveTowards playerPosition deltaTime this h, this)
  else (h, this).

(** [update(playerPosition)]: [now] is the value of the [Date.now()] of
    [update] itself, [tnow] the value read by [transitionTo] if it is
    reached.  The player position is only read, so it is passed as the
    coordinates it holds. *)
Definition update (now tnow : number) (playerPosition : NPCPosition)
    (this : NPCController) (h : Heap)
  : Completion (Heap * NPCController) unit :=
  let deltaTime := (now - lastUpdateTime this) / 1000 in
  let this := set_lastUpdateTime now this in
  let distanceToPlayer := getDistanceTo h this playerPosition in
  match state (npc this) with
  | idle => Returns (h, handleIdleState tnow distanceToPlayer this) tt
  | patrol => handlePatrolState tnow distanceToPlayer deltaTime this h
  | aggressive =>
      Returns
        (handleAggressiveState tnow playerPosition distanceToPlayer
           deltaTime this h)
        tt
  end.

Definition takeDamage (tnow amount : number) (this : NPCController)
  : NPCController * bool :=
  let this := set_npc (set_health (Rmax 0 (health (npc this) - amount)) (npc this)) this in
  let this :=
    if decide (state (npc this) ≠ aggressive) then
      transitionTo tnow aggressive this
    else this in
  (this, bool_decide (health (npc this) <= 0)).

Definition heal (amount : number) (this : NPCController) : NPCController :=
  set_npc
    (set_health (Rmin (maxHealth (npc this)) (health (npc this) + amount))
       (npc this))
    this.

Definition getState (this : NPCController) : NPCState := state (npc this).

(** [{ ...this.npc.position }]: a new position object. *)
Definition getPosition (this : NPCController) (h : Heap) : Heap * ref :=
  alloc_position (deref h (position (npc this))) h.

Definition getHealth (this : NPCController) : number := health (npc this).

Definition getMaxHealth (this : NPCController) : number :=
  maxHealth (npc this).

(** [{ ...this.npc }]: a new object with the fields of [this.npc], each
    copied as it is; a field that holds a reference ([position],
    [patrolPoints]) is copied as that reference. *)
Definition getNPC (this : NPCController) : NPC := npc this.

Definition isInAttackRange (h : Heap) (this : NPCController)
    (playerPosition : NPCPosition) : bool :=
  bool_decide (getDistanceTo h this playerPosition <= attackRange (npc this)).

Definition canAttack (this : NPCController) : bool :=
  bool_decide (state (npc this) = aggressive)
  && bool_decide (health (npc this) > 0).

(** *** What a caller can do to a value it was handed

    A primitive (number, string) cannot be changed.  On an object the
    caller can assign its fields: the coordinates of a position object,
    the elements of an array. *)
Inductive Mutation :=
  | AssignX (r : ref) (v : number)
  | AssignY (r : ref) (v : number)
  | AssignElements (a : ref) (elems : list ref).

Definition perform (m : Mutation) (h : Heap) : Heap :=
  match m with
  | AssignX r v => write_position r {| x := v; y := y (deref h r) |} h
  | AssignY r v => write_position r {| x := x (deref h r); y := v |} h
  | AssignElements a elems => write_array a elems h
  end.

(** The mutations open to the holder of a position object [r]. *)
Definition on_position (r : ref) (m : Mutation) : Prop :=
  match m with
  | AssignX r' _ | AssignY r' _ => r' = r
  | AssignElements _ _ => False
  end.

(** The mutations open to the holder of a snapshot [s]: on the position
    object in its [position] field, on the array in its [patrolPoints]
    field, and on the position objects that array holds. *)
Definition on_snapshot (h : Heap) (s : NPC) (m : Mutation) : Prop :=
  match m with
  | AssignX r _ | AssignY r _ =>
      r = position s
      ∨ ∃ a, patrolPoints s = Some a ∧ r ∈ deref_array h a
  | AssignElements a _ => patrolPoints s = Some a
  end.

(** *** NPCManager

    The [Map] from id to controller.  (The order in which a [Map] is
    traversed plays no part below.) *)
Abbreviation NPCManager := (gmap string NPCController).

Definition spawnNPC (now : number) (i : string) (pos : NPCPosition)
    (config : NPCConfig) (npcs : NPCManager) (h : Heap)
  : Completion (Heap * NPCManager) NPCController :=
  let (h', controller) := new_NPCController now i pos config h in
  Returns (h', <[i := controller]> npcs) controller.

Definition removeNPC (i : string) (npcs : NPCManager) : NPCManager * bool :=
  (delete i npcs, bool_decide (is_Some (npcs !! i))).

Definition manager_getNPC (i : string) (npcs : NPCManager)
  : option NPCController :=
  npcs !! i.

(** *** Notions used to state the properties *)

(** The behavior state an [update] leaves the actor in. *)
Definition state_after (c : Completion (Heap * NPCController) unit)
  : NPCState :=
  state (npc (snd (final c))).

(** The current waypoint index is a valid index into the route, when
    there is a route with waypoints. *)
Definition index_in_route (h : Heap) (this : NPCController) : Prop :=
  forall a,
    patrolPoints (npc this) = Some a ->
    deref_array h a = []
    \/ (currentPatrolIndex (npc this) < length (deref_array h a))%nat.

(** What an actor is made of: its own fields, the coordinates in its
    position object, and the coordinates of the waypoints of its
    route. *)
Definition internal_state (h : Heap) (this : NPCController)
  : NPCController * NPCPosition * option (list NPCPosition) :=
  (this,
   deref h (position (npc this)),
   (fun a => deref h <$> deref_array h a) <$> patrolPoints (npc this)).

(** Every object the actor refers to is on the heap. *)
Definition allocated (h : Heap) (this : NPCController) : Prop :=
  position (npc this) ∈ dom (positions h)
  /\ forall a t,
       patrolPoints (npc this) = Some a ->
       t ∈ deref_array h a ->
       t ∈ dom (positions h).

(** Sample data: the empty heap, and the configurations of a plain
    hostile and of a guard whose patrol route is the array [a]. *)
Definition empty_heap : Heap := mkHeap ∅ ∅.

Definition hostile_config : NPCConfig :=
  mkNPCConfig "Hostile 1" None None None None None.

Definition guard_config (a : ref) : NPCConfig :=
  mkNPCConfig "Guard" (Some 100) (Some 200) None (Some 1.5) (Some a).

(** A hostile spawned at the origin of an empty world, and the same
    hostile after a hit that takes all of its health. *)
Definition spawned_hostile : Heap * NPCController :=
  new_NPCController 0 "enemy_0" (mkPosition 0 0) hostile_config empty_heap.

Definition defeated_hostile : NPCController :=
  fst (takeDamage 1 100 (snd spawned_hostile)).

(** A world in which the caller has made an empty array, to be passed
    as a patrol route. *)
Definition empty_route : Heap * ref := alloc_array [] empty_heap.

(** A registry that holds the spawned hostile under its id. *)
Definition registry_with_hostile : NPCManager :=
  <["enemy_0"%string := snd spawned_hostile]> ∅.

(** *** The rest of NPCSystem.ts: the queries of the registry, the
    guard, and an actor driven through its methods *)

(** [Array.from(this.npcs.values())]: the controllers the map holds,
    each once.  A [Map] lists them in the order of insertion, which the
    finite map does not record; the properties below are about which
    snapshots a query returns, not about their order. *)
Definition controllers (npcs : NPCManager) : list NPCController :=
  (map_to_list npcs).*2.

Definition getAllNPCs (npcs : NPCManager) : list NPC :=
  getNPC <$> controllers npcs.

Definition getActiveNPCs (npcs : NPCManager) : list NPC :=
  filter (fun n => health n > 0) (getAllNPCs npcs).

Definition getAggressiveNPCs (npcs : NPCManager) : list NPC :=
  filter (fun n => state n = aggressive /\ health n > 0) (getAllNPCs npcs).

(** The distance test of [getNPCsInRange], on a snapshot. *)
Definition distance_from (h : Heap) (pos : NPCPosition) (n : NPC) : number :=
  let dx := x (deref h (position n)) - x pos in
  let dy := y (deref h (position n)) - y pos in
  sqrt (dx * dx + dy * dy).

Definition getNPCsInRange (h : Heap) (pos : NPCPosition) (range : number)
    (npcs : NPCManager) : list NPC :=
  filter (fun n => distance_from h pos n <= range) (getAllNPCs npcs).

(** [createPatrollingGuard(manager, id, patrolPoints)].  The guard is
    spawned at [patrolPoints[0]].  For an empty array that is
    [undefined], and the position of the guard has no coordinates at
    all, which a position of the model cannot express: [None] stands
    for that case. *)
Definition createPatrollingGuard (now : number) (i : string)
    (route : ref) (npcs : NPCManager) (h : Heap)
  : option (Completion (Heap * NPCManager) NPCController) :=
  match deref_array h route !! 0%nat with
  | Some first => Some (spawnNPC now i (deref h first) (guard_config route) npcs h)
  | None => None
  end.

(** An actor driven through its public methods. *)
Inductive ActorOp :=
  | DoUpdate (now tnow : number) (playerPosition : NPCPosition)
  | DoTakeDamage (tnow amount : number)
  | DoHeal (amount : number).

Definition perform_op (op : ActorOp) (s : Heap * NPCController)
  : Completion (Heap * NPCController) unit :=
  match op with
  | DoUpdate now tnow playerPosition =>
      update now tnow playerPosition (snd s) (fst s)
  | DoTakeDamage tnow amount =>
      Returns (fst s, fst (takeDamage tnow amount (snd s))) tt
  | DoHeal amount => Returns (fst s, heal amount (snd s)) tt
  end.

(** The operations one after the other; a throw ends the run. *)
Fixpoint perform_ops (ops : list ActorOp) (s : Heap * NPCController)
  : Completion (Heap * NPCController) unit :=
  match ops with
  | [] => Returns s tt
  | op :: rest =>
      match perform_op op s with
      | Returns s' _ => perform_ops rest s'
      | Throws s' error => Throws s' error
      end
  end.

(** Damage and healing given as amounts: not negative. *)
Definition amount_ok (op : ActorOp) : Prop :=
  match op with
  | DoTakeDamage _ amount | DoHeal amount => 0 <= amount
  | DoUpdate _ _ _ => True
  end.

(** The distance an actor covers in one [update]:
    [speed * deltaTime * 60]. *)
Definition stride (now : number) (this : NPCController) : number :=
  speed (npc this) * ((now - lastUpdateTime this) / 1000) * 60.

(** A world in which the caller has made a route of two waypoints,
    (0, 0) and (100, 0). *)
Definition two_waypoints : Heap * ref :=
  let (h1, p1) := alloc_position (mkPosition 0 0) empty_heap in
  let (h2, p2) := alloc_position (mkPosition 100 0) h1 in
  alloc_array [p1; p2] h2.

(** The spawned hostile after a hit of 10: aggressive, at the origin. *)
Definition aggressive_hostile : NPCController :=
  fst (takeDamage 0 10 (snd spawned_hostile)).

(** A guard constructed on the first of the two waypoints. *)
Definition patrolling_guard : Heap * NPCController :=
  new_NPCController 0 "guard_1" (mkPosition 0 0)
    (guard_config (snd two_waypoints)) (fst two_waypoints).

(** *** createEnemySquad *)

(** A number in a template literal, for a count: its decimal digits. *)
Definition render (n : nat) : string :=
  NilZero.string_of_uint (Nat.to_uint n).

(** What one turn of the loop of [createEnemySquad] reads from outside:
    the digits of the [Date.now()] in the id, the [Date.now()] of the
    constructor, and the two draws of [Math.random()], for the health
    and for the speed. *)
Record SquadDraws := mkSquadDraws {
  draw_stamp : string;
  draw_now : number;
  draw_health : number;
  draw_speed : number;
}.

Definition squad_id (d : SquadDraws) (i : nat) : string :=
  "enemy_" +:+ (draw_stamp d +:+ ("_" +:+ render i)).

(** The place of member [i]: the two coordinates as the loop computes
    them.  [Math.cos] and [Math.sin] are the cosine and sine, of which
    nothing is used below but their values at 0. *)
Definition squad_position (centerPosition : NPCPosition) (i : nat)
  : NPCPosition :=
  let squadSize := 3 in
  let spread := 50 in
  let angle := INR i / squadSize * PI * 2 in
  {| x := x centerPosition + cos angle * spread;
     y := y centerPosition + sin angle * spread |}.

Definition squad_config (d : SquadDraws) (i : nat) : NPCConfig :=
  {| config_name := "Hostile " +:+ render (i + 1);
     config_health := Some (50 + draw_health d * 50);
     config_detectionRange := None;
     config_attackRange := None;
     config_speed := Some (1.5 + draw_speed d);
     config_patrolPoints := None |}.

(** The loop, over the indices that are left. *)
Fixpoint spawn_members (indices : list nat) (draws : nat -> SquadDraws)
    (centerPosition : NPCPosition) (npcs : NPCManager) (h : Heap)
  : Completion (Heap * NPCManager) unit :=
  match indices with
  | [] => Returns (h, npcs) tt
  | i :: rest =>
      match
        spawnNPC (draw_now (draws i)) (squad_id (draws i) i)
          (squad_position centerPosition i) (squad_config (draws i) i)
          npcs h
      with
      | Returns s _ =>
          spawn_members rest draws centerPosition (snd s) (fst s)
      | Throws s error => Throws s error
      end
  end.

(** [createEnemySquad(manager, centerPosition)] *)
Definition createEnemySquad (draws : nat -> SquadDraws)
    (centerPosition : NPCPosition) (npcs : NPCManager) (h : Heap)
  : Completion (Heap * NPCManager) unit :=
  spawn_members [0; 1; 2]%nat draws centerPosition npcs h.

(** Sample draws: the same clock reading and the same draws in every
    turn of the loop. *)
Definition same_draws (i : nat) : SquadDraws :=
  mkSquadDraws "1700000000000" 1700000000000 0.5 0.5.

End NPCSystem.

(** ** GameState.tsx *)

Module Game.

Record Mission := mkMission {
  id : string;
  title : string;
  objective : string;
  reward : number;
  targetNPC : string;
}.

Record Position := mkPosition {
  x : number;
  y : number;
}.

Record GameState := mkGameState {
  health : number;
  maxHealth : number;
  ammo : number;
  maxAmmo : number;
  playerLevel : number;
  position : Position;
  currentMission : option Mission;
  equippedWeapon : string;
  score : number;
}.

Inductive GameAction :=
  | SHOOT
  | RELOAD
  | TAKE_DAMAGE (payload : number)
  | HEAL (payload : number)
  | MOVE (payload : Position)
  | SET_MISSION (payload : Mission)
  | COMPLETE_MISSION
  | EQUIP_WEAPON (payload : string)
  | ADD_SCORE (payload : number)
  | RESET.

Definition initialState : GameState :=
  {| health := 100;
     maxHealth := 100;
     ammo := 30;
     maxAmmo := 30;
     playerLevel := 1;
     position := {| x := 0; y := 0 |};
     currentMission := None;
     equippedWeapon := "rifle";
     score := 0 |}.

(** [{ ...state, f: v }] for the fields the reducer assigns. *)
Definition with_ammo (v : number) (s : GameState) : GameState :=
  {| health := health s; maxHealth := maxHealth s; ammo := v;
     maxAmmo := maxAmmo s; playerLevel := playerLevel s;
     position := position s; currentMission := currentMission s;
     equippedWeapon := equippedWeapon s; score := score s |}.

Definition with_health (v : number) (s : GameState) : GameState :=
  {| health := v; maxHealth := maxHealth s; ammo := ammo s;
     maxAmmo := maxAmmo s; playerLevel := playerLevel s;
     position := position s; currentMission := currentMission s;
     equippedWeapon := equippedWeapon s; score := score s |}.

Definition with_position (v : Position) (s : GameState) : GameState :=
  {| health := health s; maxHealth := maxHealth s; ammo := ammo s;
     maxAmmo := maxAmmo s; playerLevel := playerLevel s;
     position := v; currentMission := currentMission s;
     equippedWeapon := equippedWeapon s; score := score s |}.

Definition with_currentMission (v : option Mission) (s : GameState)
  : GameState :=
  {| health := health s; maxHealth := maxHealth s; ammo := ammo s;
     maxAmmo := maxAmmo s; playerLevel := playerLevel s;
     position := position s; currentMission := v;
     equippedWeapon := equippedWeapon s; score := score s |}.

Definition with_equippedWeapon (v : string) (s : GameState) : GameState :=
  {| health := health s; maxHealth := maxHealth s; ammo := ammo s;
     maxAmmo := maxAmmo s; playerLevel := playerLevel s;
     position := position s; currentMission := currentMission s;
     equippedWeapon := v; score := score s |}.

Definition with_score (v : number) (s : GameState) : GameState :=
  {| health := health s; maxHealth := maxHealth s; ammo := ammo s;
     maxAmmo := maxAmmo s; playerLevel := playerLevel s;
     position := position s; currentMission := currentMission s;
     equippedWeapon := equippedWeapon s; score := v |}.

(** [gameReducer(state, action)].  The [default] branch of the source
    is reached by no value of type [GameAction]. *)
Definition gameReducer (state : GameState) (action : GameAction)
  : GameState :=
  match action with
  | SHOOT =>
      if bool_decide (ammo state <= 0) then state
      else with_ammo (ammo state - 1) state
  | RELOAD => with_ammo (maxAmmo state) state
  | TAKE_DAMAGE payload =>
      let newHealth := Rmax 0 (health state - payload) in
      with_health newHealth state
  | HEAL payload =>
      let healedHealth := Rmin (maxHealth state) (health state + payload) in
      with_health healedHealth state
  | MOVE payload =>
      with_position
        {| x := x (position state) + x payload;
           y := y (position state) + y payload |}
        state
  | SET_MISSION payload => with_currentMission (Some payload) state
  | COMPLETE_MISSION =>
      match currentMission state with
      | None => state
      | Some mission =>
          with_currentMission None
            (with_score (score state + reward mission) state)
      end
  | EQUIP_WEAPON payload => with_equippedWeapon payload state
  | ADD_SCORE payload => with_score (score state + payload) state
  | RESET => initialState
  end.

(** [useReducer(gameReducer, initialState)]: the state after a sequence
    of dispatched actions. *)
Definition dispatchAll (actions : list GameAction) : GameState :=
  foldl gameReducer initialState actions.

(** Payloads that feed the health clamps, and payloads that feed the
    score, are amounts: not negative. *)
Definition health_amount (a : GameAction) : Prop :=
  match a with
  | TAKE_DAMAGE payload | HEAL payload => 0 <= payload
  | _ => True
  end.

Definition score_amount (a : GameAction) : Prop :=
  match a with
  | ADD_SCORE payload => 0 <= payload
  | SET_MISSION payload => 0 <= reward payload
  | _ => True
  end.

(** A sample mission. *)
Definition sample_mission : Mission :=
  mkMission "m1" "Eliminate Target" "Locate and neutralize" 500
            "Enemy Commander".

End Game.

(** * Properties *)

(** ** The gun *)

Module GunSpec.
Import Gun.

Ltac fire_cases this :=
  unfold fire; destruct (isReloading this) eqn:?;
  repeat case_bool_decide; simpl in *.

Lemma fire_config (now : number) (this : GunController) :
  config (after (fire now this)) = config this.
Proof. fire_cases this; reflexivity. Qed.

Lemma fire_while_reloading (now : number) (this : GunController) :
  isReloading this = true -> fire now this = mkCall this [] false.
Proof. intros H. unfold fire. rewrite H. reflexivity. Qed.

Lemma reload_while_reloading (this : GunController) :
  isReloading this = true -> reload this = mkCall this [] Resolved.
Proof. intros H. unfold reload. rewrite H. reflexivity. Qed.

(** While a reload is in flight, calls of [fire()] and [reload()] and
    the passing of time short of the due time leave the gun as it is,
    and the one pending callback pending. *)
Lemma in_flight (es : list Event) (rt : Runtime) (due : number) :
  isReloading (gun rt) = true ->
  timeouts rt = [due] ->
  Forall (before due) es ->
  gun (run rt es) = gun rt /\ timeouts (run rt es) = [due].
Proof.
  revert rt. induction es as [|e es IH]; intros rt Hr Hq Hes; [done|].
  apply Forall_cons in Hes as [He Hes]. unfold run in *. simpl.
  assert (gun (step rt e) = gun rt /\ timeouts (step rt e) = [due])
    as [Hg Ht].
  { destruct e as [| |t]; simpl in *.
    - rewrite fire_while_reloading by done. done.
    - rewrite reload_while_reloading by done. done.
    - rewrite Hq. simpl. rewrite !filter_cons, !filter_nil.
      destruct (decide (due <= t)); [lra|].
      destruct (decide (t < due)); [done|lra]. }
  destruct (IH (step rt e)) as [Hg' Ht']; [congruence|done|done|].
  split; congruence.
Qed.

(** While the gun cools down, [fire()] does nothing. *)
Lemma fire_cooling_down (now : number) (this : GunController) :
  cooling_down now this -> fire now this = mkCall this [] false.
Proof.
  intros H. unfold fire. destruct (isReloading this); [done|].
  by rewrite bool_decide_eq_true_2.
Qed.

(** For a fire rate other than 0 the cooldown test is the comparison
    with the quotient. *)
Lemma not_cooling_down (now : number) (this : GunController) :
  fireRate (stats (config this)) <> 0 ->
  ~ now - lastFireTime this < fireInterval this ->
  ~ cooling_down now this.
Proof. intros Hrate Hgap [Hz|Hlt]; done. Qed.




(** A call of [fire()] that returns true was made on a gun that was not
    reloading, and leaves the gun with one round less and the time of
    the call. *)
Lemma fire_success (now : number) (this : GunController) :
  returned (fire now this) = true ->
  isReloading this = false
  /\ after (fire now this)
     = set_lastFireTime now (set_currentAmmo (currentAmmo this - 1) this).
Proof. fire_cases this; done. Qed.

(** Two calls of [fire()] less than the fire interval apart: the second
    is rejected and leaves the gun as the first left it. *)
Lemma fire_twice_within_interval (now1 now2 : number)
    (this : GunController) :
  returned (fire now1 this) = true ->
  now2 - now1 < fireInterval this ->
  fire now2 (after (fire now1 this)) = mkCall (after (fire now1 this)) [] false.
Proof.
  intros Hok Hgap. destruct (fire_success now1 this Hok) as [Hr ->].
  apply fire_cooling_down. right. done.
Qed.

(** On the event loop, a gun whose magazine size and ammo are counts
    keeps a count for ammo, whatever happens: ammo is never negative. *)
Lemma ammo_stays_a_count (es : list Event) (rt : Runtime) :
  (exists m : nat, magazineSize (stats (config (gun rt))) = INR m) ->
  (exists n : nat, currentAmmo (gun rt) = INR n) ->
  exists n : nat, currentAmmo (gun (run rt es)) = INR n.
Proof.
  revert rt. induction es as [|e es IH]; intros rt Hm Hn; [done|].
  unfold run in *. simpl. apply IH.
  - destruct e as [| |t]; simpl.
    + by rewrite fire_config.
    + unfold reload. by destruct (isReloading (gun rt)).
    + induction (filter _ (timeouts rt)); done.
  - destruct e as [| |t]; simpl.
    + destruct Hn as [n Hn].
      fire_cases (gun rt); try (by exists n).
      destruct n as [|n]; [simpl in Hn; lra|].
      exists n. rewrite S_INR in Hn. lra.
    + unfold reload. by destruct (isReloading (gun rt)).
    + induction (filter _ (timeouts rt)) as [|d ds IHds]; [done|].
      simpl. destruct Hm as [m Hm]. exists m. rewrite <- Hm.
      clear IHds. induction ds; done.
Qed.


(** C4.  [reload()] on a gun that is reloading resolves at once and
    changes nothing.  Otherwise it sets [isReloading], changes nothing
    else, and hands [setTimeout] a callback with delay [reloadTime];
    that callback sets [currentAmmo] to [magazineSize] and clears
    [isReloading].  On the event loop: whatever calls of [fire()] and
    [reload()] come in between, the gun stays as [reload()] left it
    until the clock reaches the due time, and once it has, the magazine
    is full and the flag is clear. *)
Theorem C4_reload (this : GunController) :
  (isReloading this = true -> reload this = mkCall this [] Resolved)
  /\ (isReloading this = false ->
      after (reload this) = set_isReloading true this
      /\ returned (reload this)
         = AfterTimeout (reloadTime (stats (config this))))
  /\ (currentAmmo (reloadTimeout this) = magazineSize (stats (config this))
      /\ isReloading (reloadTimeout this) = false)
  /\ (forall (t0 t : number) (es : list Event),
        isReloading this = false ->
        Forall (before (t0 + reloadTime (stats (config this)))) es ->
        t0 + reloadTime (stats (config this)) <= t ->
        gun (run (mkRuntime t0 this []) (CallReload :: es))
        = set_isReloading true this
        /\ currentAmmo
             (gun (run (mkRuntime t0 this []) (CallReload :: es ++ [Advance t])))
           = magazineSize (stats (config this))
        /\ isReloading
             (gun (run (mkRuntime t0 this []) (CallReload :: es ++ [Advance t])))
           = false
        /\ timeouts (run (mkRuntime t0 this []) (CallReload :: es ++ [Advance t]))
           = []).
Proof.
  split; [apply reload_while_reloading|].
  split; [intros Hr; unfold reload; rewrite Hr; done|].
  split; [done|].
  intros t0 t es Hr Hes Ht.
  set (due := t0 + reloadTime (stats (config this))) in *.
  set (rt1 := step (mkRuntime t0 this []) CallReload).
  assert (Hg1 : gun rt1 = set_isReloading true this).
  { unfold rt1. simpl. unfold reload. rewrite Hr. done. }
  assert (Hq1 : timeouts rt1 = [due]).
  { unfold rt1. simpl. unfold reload. rewrite Hr. done. }
  destruct (in_flight es rt1 due) as [Hg Hq]; [by rewrite Hg1|done|done|].
  change (run (mkRuntime t0 this []) (CallReload :: es)) with (run rt1 es).
  change (run (mkRuntime t0 this []) (CallReload :: es ++ [Advance t]))
    with (run rt1 (es ++ [Advance t])).
  split; [congruence|].
  unfold run in *. rewrite foldl_app. simpl. rewrite Hq, Hg, Hg1.
  rewrite !filter_cons, !filter_nil.
  destruct (decide (due <= t)); [|lra].
  destruct (decide (t < due)); [lra|]. done.
Qed.

Lemma C4_reload_witness :
  gun (run (mkRuntime 0 (new_GunController rifle_config) [])
         [CallReload; CallFire; CallReload; Advance 1999])
  = set_isReloading true (new_GunController rifle_config)
  /\ currentAmmo
       (gun (run (mkRuntime 0 (new_GunController rifle_config) [])
               [CallReload; CallFire; CallReload; Advance 1999; Advance 2000]))
     = 30
  /\ isReloading
       (gun (run (mkRuntime 0 (new_GunController rifle_config) [])
               [CallReload; CallFire; CallReload; Advance 1999; Advance 2000]))
     = false.
Proof.
  destruct (C4_reload (new_GunController rifle_config)) as (_ & _ & _ & H).
  destruct (H 0 2000 [CallFire; CallReload; Advance 1999])
    as (Hmid & Hammo & Hflag & _).
  - reflexivity.
  - repeat constructor. simpl. lra.
  - simpl. lra.
  - split; [exact Hmid|]. split; [exact Hammo|exact Hflag].
Defined.

(** ** More on the gun *)

(** X1.  Two calls of [fire()] less than the fire interval apart: when
    the first returns true, the second returns false, gives no signal
    and leaves the gun, its ammo included, as the first call left
    it.  (A gun whose fire rate is 0 never leaves its cooldown, so no
    call on it returns true.) *)
Theorem X1_second_shot_in_cooldown (now1 now2 : number)
    (this : GunController) :
  returned (fire now1 this) = true ->
  now2 - now1 < fireInterval this ->
  returned (fire now2 (after (fire now1 this))) = false
  /\ emitted (fire now2 (after (fire now1 this))) = []
  /\ after (fire now2 (after (fire now1 this))) = after (fire now1 this)
  /\ currentAmmo (after (fire now2 (after (fire now1 this))))
     = currentAmmo this - 1.
Proof.
  intros Hok Hgap.
  rewrite (fire_twice_within_interval now1 now2 this Hok Hgap). simpl.
  destruct (fire_success now1 this Hok) as [_ ->]. done.
Qed.

Lemma X1_second_shot_in_cooldown_witness :
  returned
    (fire 1100 (after (fire 1000 (new_GunController rifle_config))))
  = false
  /\ currentAmmo
       (after (fire 1100 (after (fire 1000 (new_GunController rifle_config)))))
     = 30 - 1.
Proof.
  destruct (X1_second_shot_in_cooldown 1000 1100
              (new_GunController rifle_config)) as (Hret & _ & _ & Hammo).
  - unfold fire. simpl.
    rewrite bool_decide_eq_false_2
      by (apply not_cooling_down; unfold fireInterval; simpl; lra).
    rewrite bool_decide_eq_false_2 by lra. reflexivity.
  - unfold fireInterval. simpl. lra.
  - split; [exact Hret|exact Hammo].
Defined.

Lemma spaced_earlier (interval last last' : number) (times : list number) :
  last' <= last -> spaced interval last times -> spaced interval last' times.
Proof.
  destruct times as [|t rest]; [done|]. simpl. intros Hle [Ht Hrest].
  split; [lra|done].
Qed.

Lemma fireMany_spaced (times : list number) (this : GunController)
    (k : nat) :
  fireRate (stats (config this)) <> 0 ->
  0 <= fireInterval this ->
  isReloading this = false ->
  currentAmmo this = INR k ->
  spaced (fireInterval this) (lastFireTime this) times ->
  snd (fireMany times this)
  = replicate (min k (length times)) true
    ++ replicate (length times - k) false
  /\ currentAmmo (fst (fireMany times this)) = INR (k - length times)
  /\ isReloading (fst (fireMany times this)) = false.
Proof.
  revert this k.
  induction times as [|t rest IH]; intros this k Hz Hi Hr Hk Hsp.
  - simpl. rewrite Nat.min_0_r, Nat.sub_0_r. done.
  - destruct Hsp as [Ht Hrest]. simpl.
    destruct k as [|k].
    + assert (Hfire : fire t this = mkCall this (invoke (onEmpty this) OnEmpty) false).
      { unfold fire. rewrite Hr.
        rewrite bool_decide_eq_false_2 by (apply not_cooling_down; [done|lra]).
        rewrite bool_decide_eq_true_2 by (rewrite Hk; simpl; lra). done. }
      rewrite Hfire. simpl.
      destruct (IH this 0%nat Hz Hi Hr Hk) as (Hres & Hammo & Hrel).
      { apply (spaced_earlier _ t); [lra|done]. }
      rewrite Hres, Hammo, Hrel, !Nat.sub_0_r. simpl. done.
    + assert (Hfire : fire t this
                      = mkCall
                          (set_lastFireTime t
                             (set_currentAmmo (currentAmmo this - 1) this))
                          (invoke (onFire this) OnFire) true).
      { unfold fire. rewrite Hr.
        rewrite bool_decide_eq_false_2 by (apply not_cooling_down; [done|lra]).
        rewrite bool_decide_eq_false_2; [done|].
        rewrite Hk, S_INR. pose proof (pos_INR k). lra. }
      rewrite Hfire. simpl.
      destruct (IH (set_lastFireTime t
                      (set_currentAmmo (currentAmmo this - 1) this)) k)
        as (Hres & Hammo & Hrel); try done.
      { simpl. rewrite Hk, S_INR. lra. }
      rewrite Hres, Hammo, Hrel. done.
Qed.

(** X2.  A gun that is not reloading, holds [k] rounds and is fired at
    times that are each at least the fire interval after the one
    before: the first [k] calls return true, every later call returns
    false, and the ammo left is [k] less the number of calls, or 0 when
    there were more calls than rounds. *)
Theorem X2_magazine_drains (times : list number) (this : GunController)
    (k : nat) :
  0 < fireRate (stats (config this)) ->
  isReloading this = false ->
  currentAmmo this = INR k ->
  spaced (fireInterval this) (lastFireTime this) times ->
  snd (fireMany times this)
  = replicate (min k (length times)) true
    ++ replicate (length times - k) false
  /\ currentAmmo (fst (fireMany times this)) = INR (k - length times).
Proof.
  intros Hrate Hr Hk Hsp.
  destruct (fireMany_spaced times this k) as (Hres & Hammo & _); try done.
  - lra.
  - unfold fireInterval. apply Rlt_le, Rdiv_lt_0_compat; lra.
Qed.

Lemma X2_magazine_drains_witness :
  snd (fireMany [1000; 1125; 1250] two_round_gun) = [true; true; false]
  /\ currentAmmo (fst (fireMany [1000; 1125; 1250] two_round_gun)) = 0.
Proof.
  destruct (X2_magazine_drains [1000; 1125; 1250] two_round_gun 2)
    as [Hres Hammo].
  - simpl. lra.
  - reflexivity.
  - simpl. lra.
  - unfold fireInterval. simpl. lra.
  - split; [exact Hres|exact Hammo].
Defined.

Lemma reloadTimeouts_gun (ds : list number) (g : GunController) :
  foldr (fun _ g => reloadTimeout g) g ds
  = match ds with
    | [] => g
    | _ => reloadTimeout g
    end.
Proof.
  induction ds as [|d ds IH]; [done|]. simpl. rewrite IH.
  destruct ds; done.
Qed.

Lemma step_config (rt : Runtime) (e : Event) :
  config (gun (step rt e)) = config (gun rt).
Proof.
  destruct e as [| |t]; simpl.
  - apply fire_config.
  - unfold reload. by destruct (isReloading (gun rt)).
  - rewrite reloadTimeouts_gun. by destruct (filter _ _).
Qed.

(** X3.  On the event loop, whatever calls of [fire()] and [reload()]
    are made and however the clock moves: a gun whose ammo is a count
    no larger than its magazine size keeps such an ammo; it is never
    negative and never above the magazine size. *)
Theorem X3_ammo_within_magazine (es : list Event) (rt : Runtime)
    (m n : nat) :
  magazineSize (stats (config (gun rt))) = INR m ->
  currentAmmo (gun rt) = INR n ->
  (n <= m)%nat ->
  exists n' : nat,
    currentAmmo (gun (run rt es)) = INR n'
    /\ (n' <= m)%nat
    /\ 0 <= currentAmmo (gun (run rt es))
         <= magazineSize (stats (config (gun (run rt es)))).
Proof.
  revert rt n. induction es as [|e es IH]; intros rt n Hm Hn Hle.
  - exists n. split; [done|]. split; [done|]. simpl. rewrite Hm, Hn.
    split; [apply pos_INR|by apply le_INR].
  - unfold run in *. simpl.
    assert (Hstep : exists n1 : nat,
              currentAmmo (gun (step rt e)) = INR n1 /\ (n1 <= m)%nat).
    { destruct e as [| |t]; simpl.
      - fire_cases (gun rt); try (by exists n).
        destruct n as [|n]; [simpl in Hn; lra|].
        exists n. rewrite S_INR in Hn. split; [lra|lia].
      - unfold reload. destruct (isReloading (gun rt)); by exists n.
      - rewrite reloadTimeouts_gun.
        destruct (filter _ _); [by exists n|]. exists m. by simpl. }
    destruct Hstep as (n1 & Hn1 & Hle1).
    apply (IH (step rt e) n1); [|done|done].
    by rewrite step_config.
Qed.

Lemma X3_ammo_within_magazine_witness :
  exists n' : nat,
    currentAmmo
      (gun (run (mkRuntime 0 (new_GunController rifle_config) [])
              [CallFire; CallReload; Advance 5000; CallFire]))
    = INR n'
    /\ (n' <= 30)%nat.
Proof.
  destruct (X3_ammo_within_magazine
              [CallFire; CallReload; Advance 5000; CallFire]
              (mkRuntime 0 (new_GunController rifle_config) []) 30 30)
    as (n' & Hn' & Hle & _).
  - rewrite INR_IZR_INZ. reflexivity.
  - rewrite INR_IZR_INZ. reflexivity.
  - lia.
  - exists n'. split; [exact Hn'|exact Hle].
Defined.

Lemma step_timers_match (rt : Runtime) (e : Event) :
  timers_match rt -> timers_match (step rt e).
Proof.
  unfold timers_match.
  destruct (isReloading (gun rt)) eqn:Hr; intros Hrt.
  - destruct Hrt as [due Hdue].
    destruct e as [| |t]; simpl.
    + rewrite fire_while_reloading by done. simpl. rewrite Hr. by eexists.
    + rewrite reload_while_reloading by done. simpl. rewrite Hr.
      by eexists.
    + rewrite reloadTimeouts_gun, Hdue. rewrite !filter_cons, !filter_nil.
      destruct (decide (due <= t)), (decide (t < due)); try lra; simpl.
      * done.
      * rewrite Hr. by eexists.
  - destruct e as [| |t]; simpl.
    + assert (isReloading (after (fire (clock rt) (gun rt))) = false)
        as -> by (fire_cases (gun rt); done).
      done.
    + unfold reload. rewrite Hr. simpl. rewrite Hrt. by eexists.
    + rewrite reloadTimeouts_gun, Hrt. rewrite !filter_nil. by rewrite Hr.
Qed.

(** X4.  On the event loop, starting from a gun that is not reloading
    and has no callback pending: the gun is reloading exactly when one
    completion is pending, and never is more than one pending.  So a
    reload that was started is always completed by its callback, and a
    magazine is never refilled twice for one reload. *)
Theorem X4_one_pending_reload (es : list Event) (t0 : number)
    (this : GunController) :
  isReloading this = false ->
  (isReloading (gun (run (mkRuntime t0 this []) es)) = true
   <-> exists due, timeouts (run (mkRuntime t0 this []) es) = [due])
  /\ (isReloading (gun (run (mkRuntime t0 this []) es)) = false
      <-> timeouts (run (mkRuntime t0 this []) es) = [])
  /\ (length (timeouts (run (mkRuntime t0 this []) es)) <= 1)%nat.
Proof.
  intros Hr.
  assert (Hinv : timers_match (run (mkRuntime t0 this []) es)).
  { assert (H0 : timers_match (mkRuntime t0 this []))
      by (unfold timers_match; simpl; by rewrite Hr).
    revert H0. generalize (mkRuntime t0 this []).
    induction es as [|e es IH]; intros rt Hrt; [done|].
    unfold run in *. simpl. apply IH. by apply step_timers_match. }
  unfold timers_match in Hinv.
  destruct (isReloading (gun (run (mkRuntime t0 this []) es))).
  - destruct Hinv as [due Hdue]. rewrite Hdue.
    split; [split; [by eexists|done]|]. split; [done|]. simpl. lia.
  - rewrite Hinv. split; [split; [done|by intros [? ?]]|].
    split; [done|]. simpl. lia.
Qed.

Lemma X4_one_pending_reload_witness :
  (length
     (timeouts
        (run (mkRuntime 0 (new_GunController rifle_config) [])
           [CallReload; CallReload; Advance 100; CallReload]))
   <= 1)%nat.
Proof.
  destruct (X4_one_pending_reload [CallReload; CallReload; Advance 100; CallReload]
              0 (new_GunController rifle_config)) as (_ & _ & Hlen).
  - reflexivity.
  - exact Hlen.
Defined.

Lemma clamp_bounds (v lo hi : number) :
  lo <= hi -> lo <= Rmax lo (Rmin hi v) <= hi.
Proof.
  intros Hle. unfold Rmax, Rmin.
  repeat destruct (Rle_dec _ _); lra.
Qed.

Lemma clamp_inside (v lo hi : number) :
  lo <= v <= hi -> Rmax lo (Rmin hi v) = v.
Proof.
  intros Hin. unfold Rmax, Rmin.
  repeat destruct (Rle_dec _ _); lra.
Qed.

Lemma clamp_floor_count (v : number) :
  exists n : nat,
    Rmax 1 (Rmin 100 (Math_floor v)) = INR n /\ (1 <= n <= 100)%nat.
Proof.
  unfold Math_floor. set (z := Zfloor v).
  destruct (Rle_dec (IZR z) 1) as [Hlow|Hlow].
  - exists 1%nat. split; [|lia]. unfold Rmax, Rmin. simpl.
    repeat destruct (Rle_dec _ _); lra.
  - destruct (Rle_dec 100 (IZR z)) as [Hhigh|Hhigh].
    + exists 100%nat. split; [|lia].
      assert (INR 100 = 100) as -> by (rewrite INR_IZR_INZ; reflexivity).
      unfold Rmax, Rmin. repeat destruct (Rle_dec _ _); lra.
    + assert (H1 : (1 < z)%Z) by (apply lt_IZR; lra).
      assert (H2 : (z < 100)%Z) by (apply lt_IZR; lra).
      exists (Z.to_nat z). split; [|lia].
      rewrite INR_IZR_INZ, Z2Nat.id by lia.
      apply clamp_inside. lra.
Qed.

Lemma INR_100 : INR 100 = 100.
Proof. rewrite INR_IZR_INZ. reflexivity. Qed.

(** [clamp] on each kind of stat. *)
Lemma clamp_clamped (s : Stat) (lo hi : number) :
  lo <= hi -> clamped lo hi s (clamp s lo hi).
Proof.
  intros Hle. destruct s as [v| | |]; simpl.
  - eexists. split; [reflexivity|]. by apply clamp_bounds.
  - exists (Rmax lo hi). split; [reflexivity|].
    unfold Rmax. destruct (Rle_dec _ _); lra.
  - exists lo. split; [reflexivity|lra].
  - reflexivity.
Qed.

Lemma clamp_clamped_count (s : Stat) :
  clamped_count s (clamp (stat_floor s) 1 100).
Proof.
  destruct s as [v| | |]; simpl.
  - destruct (clamp_floor_count v) as (n & Hn & Hle).
    exists n. split; [|done]. unfold clamp. simpl. by rewrite Hn.
  - exists 100%nat. split; [|lia]. rewrite INR_100. unfold clamp. simpl.
    f_equal. unfold Rmax. destruct (Rle_dec _ _); lra.
  - exists 1%nat. split; [|lia]. reflexivity.
  - reflexivity.
Qed.

Lemma clamp_idempotent (s : Stat) (lo hi : number) :
  lo <= hi -> clamp (clamp s lo hi) lo hi = clamp s lo hi.
Proof.
  intros Hle. destruct s as [v| | |]; unfold clamp; simpl; try done;
    f_equal; unfold Rmax, Rmin; repeat destruct (Rle_dec _ _); lra.
Qed.

Lemma clamp_floor_idempotent (s : Stat) :
  clamp (stat_floor (clamp (stat_floor s) 1 100)) 1 100
  = clamp (stat_floor s) 1 100.
Proof.
  pose proof (clamp_clamped_count s) as Hc.
  destruct (clamp (stat_floor s) 1 100) as [v| | |] eqn:Hs;
    destruct s as [w| | |]; simpl in Hc; try done;
    try (by destruct Hc as (? & ? & ?)).
  all: destruct Hc as (n & Hn & H1 & H2); injection Hn as ->.
  all: unfold clamp; simpl; f_equal.
  all: unfold Math_floor; rewrite INR_IZR_INZ, ZfloorZ, <- INR_IZR_INZ.
  all: apply clamp_inside.
  all: apply le_INR in H1, H2; rewrite INR_100 in H2; simpl in H1; lra.
Qed.

Lemma clamped_Num (lo hi : number) (s : Stat) (v : number) :
  clamped lo hi s (Num v) -> lo <= v <= hi.
Proof.
  destruct s; simpl; try done; by intros (w & [= ->] & Hw).
Qed.

Lemma clamped_count_Num (s : Stat) (v : number) :
  clamped_count s (Num v) ->
  exists n : nat, v = INR n /\ (1 <= n <= 100)%nat.
Proof.
  destruct s; simpl; try done; intros (n & [= ->] & Hn); by exists n.
Qed.

Lemma clamped_not_NaN (lo hi : number) (s o : Stat) :
  clamped lo hi s o -> s <> NaN -> exists v, o = Num v.
Proof.
  destruct s; simpl; try done; intros (u & -> & _) _; by exists u.
Qed.

Lemma clamped_count_not_NaN (s o : Stat) :
  clamped_count s o -> s <> NaN -> exists v, o = Num v.
Proof.
  destruct s; simpl; try done; intros (n & -> & _) _; by eexists.
Qed.


Lemma to_number_Some (s : Stat) (v : number) :
  to_number s = Some v -> s = Num v.
Proof. destruct s; simpl; congruence. Qed.

(** A configuration that is a [GunConfig] holds that configuration's
    name, type and six numbers. *)
Lemma to_GunConfig_Some (c : JsonConfig) (gc : GunConfig) :
  to_GunConfig c = Some gc ->
  json_name c = Some (name gc)
  /\ json_type c = Some (type gc)
  /\ json_damage (json_stats c) = Num (damage (stats gc))
  /\ json_fireRate (json_stats c) = Num (fireRate (stats gc))
  /\ json_recoil (json_stats c) = Num (recoil (stats gc))
  /\ json_spread (json_stats c) = Num (spread (stats gc))
  /\ json_magazineSize (json_stats c) = Num (magazineSize (stats gc))
  /\ json_reloadTime (json_stats c) = Num (reloadTime (stats gc)).
Proof.
  unfold to_GunConfig. intros H.
  apply bind_Some in H as (n & Hn & H).
  apply bind_Some in H as (t & Ht & H).
  apply bind_Some in H as (s & Hs & H).
  injection H as <-. unfold to_GunStats in Hs.
  repeat (apply bind_Some in Hs as (? & ? & Hs)).
  injection Hs as <-. simpl.
  repeat split; try done; by apply to_number_Some.
Qed.

Lemma to_GunConfig_nums (n : string) (t : GunType)
    (d f r sp m rt : number) :
  to_GunConfig
    (mkJsonConfig (Some n) (Some t)
       (mkJsonStats (Num d) (Num f) (Num r) (Num sp) (Num m) (Num rt)))
  = Some (mkGunConfig n t (mkGunStats d f r sp m rt)).
Proof. reflexivity. Qed.

Lemma to_GunConfig_NaN (c : JsonConfig) :
  has_NaN (json_stats c) -> to_GunConfig c = None.
Proof.
  destruct c as [n t [d f r sp m rt]]. unfold has_NaN. simpl.
  intros Hnan. destruct (to_GunConfig _) as [gc|] eqn:Hgc; [|done].
  apply to_GunConfig_Some in Hgc. simpl in Hgc.
  destruct Hgc as (_ & _ & Hd & Hf & Hr & Hsp & Hm & Hrt).
  destruct Hnan as [->|[->|[->|[->|[->| ->]]]]]; done.
Qed.

(** What validation makes of the six stats, together. *)
Lemma validateConfig_clamped (cfg : JsonConfig) :
  clamped 1 200 (json_damage (json_stats cfg))
    (json_damage (json_stats (validateConfig cfg)))
  /\ clamped 0.1 20 (json_fireRate (json_stats cfg))
       (json_fireRate (json_stats (validateConfig cfg)))
  /\ clamped 0 1 (json_recoil (json_stats cfg))
       (json_recoil (json_stats (validateConfig cfg)))
  /\ clamped 0 1 (json_spread (json_stats cfg))
       (json_spread (json_stats (validateConfig cfg)))
  /\ clamped_count (json_magazineSize (json_stats cfg))
       (json_magazineSize (json_stats (validateConfig cfg)))
  /\ clamped 500 5000 (json_reloadTime (json_stats cfg))
       (json_reloadTime (json_stats (validateConfig cfg))).
Proof.
  simpl. repeat split;
    first [apply clamp_clamped_count | apply clamp_clamped; lra].
Qed.

Lemma validateConfig_name (cfg : JsonConfig) :
  exists n : string,
    json_name (validateConfig cfg) = Some n /\ n <> ""%string.
Proof.
  simpl. destruct (json_name cfg) as [n|].
  - destruct (decide (n = ""%string)); eexists; (split; [reflexivity|done]).
  - eexists. split; [reflexivity|done].
Qed.

(** The gun built from a validated configuration, when the model has
    one. *)
Lemma validated_gun (cfg : JsonConfig) (g : GunController) :
  new_GunController <$> to_GunConfig (validateConfig cfg) = Some g ->
  (exists n : nat, currentAmmo g = INR n /\ (1 <= n <= 100)%nat)
  /\ currentAmmo g = magazineSize (stats (config g))
  /\ isReloading g = false
  /\ 1 <= damage (stats (config g)) <= 200
  /\ 0.1 <= fireRate (stats (config g)) <= 20
  /\ 0 <= recoil (stats (config g)) <= 1
  /\ 0 <= spread (stats (config g)) <= 1
  /\ 500 <= reloadTime (stats (config g)) <= 5000
  /\ name (config g) <> ""%string.
Proof.
  intros Hg. apply fmap_Some in Hg as (gc & Hgc & ->).
  apply to_GunConfig_Some in Hgc
    as (Hn & _ & Hd & Hf & Hr & Hsp & Hm & Hrt).
  destruct (validateConfig_clamped cfg) as (Cd & Cf & Cr & Csp & Cm & Crt).
  rewrite Hd in Cd. rewrite Hf in Cf. rewrite Hr in Cr.
  rewrite Hsp in Csp. rewrite Hm in Cm. rewrite Hrt in Crt.
  destruct (validateConfig_name cfg) as (n & Hn' & Hne).
  cbn [new_GunController config currentAmmo isReloading].
  split; [by apply (clamped_count_Num _ _ Cm)|].
  split; [done|]. split; [done|].
  split; [by apply (clamped_Num _ _ _ _ Cd)|].
  split; [by apply (clamped_Num _ _ _ _ Cf)|].
  split; [by apply (clamped_Num _ _ _ _ Cr)|].
  split; [by apply (clamped_Num _ _ _ _ Csp)|].
  split; [by apply (clamped_Num _ _ _ _ Crt)|].
  congruence.
Qed.

Lemma validated_gun_exists (cfg : JsonConfig) :
  ~ has_NaN (json_stats cfg) ->
  exists g, new_GunController <$> to_GunConfig (validateConfig cfg) = Some g.
Proof.
  intros Hnan. unfold has_NaN in Hnan.
  destruct (validateConfig_clamped cfg) as (Cd & Cf & Cr & Csp & Cm & Crt).
  destruct (clamped_not_NaN _ _ _ _ Cd) as [d Hd]; [tauto|].
  destruct (clamped_not_NaN _ _ _ _ Cf) as [f Hf]; [tauto|].
  destruct (clamped_not_NaN _ _ _ _ Cr) as [r Hr]; [tauto|].
  destruct (clamped_not_NaN _ _ _ _ Csp) as [sp Hsp]; [tauto|].
  destruct (clamped_count_not_NaN _ _ Cm) as [m Hm]; [tauto|].
  destruct (clamped_not_NaN _ _ _ _ Crt) as [rt Hrt]; [tauto|].
  destruct (validateConfig_name cfg) as (n & Hn & _).
  destruct (validateConfig cfg) as [vn vt [vd vf vr vsp vm vrt]] eqn:Hv.
  assert (Ht : vt = Some (default rifle (json_type cfg))).
  { unfold validateConfig in Hv. by injection Hv. }
  simpl in *. subst.
  rewrite to_GunConfig_nums. by eexists.
Qed.

Lemma validated_gun_NaN (cfg : JsonConfig) :
  has_NaN (json_stats cfg) ->
  new_GunController <$> to_GunConfig (validateConfig cfg) = None.
Proof.
  intros Hnan. rewrite to_GunConfig_NaN; [done|].
  unfold has_NaN in *. simpl.
  destruct Hnan as [H|[H|[H|[H|[H|H]]]]]; rewrite H; tauto.
Qed.

(** X5.  [validateConfig], on every configuration, whatever its stats
    hold: a stat that is NaN (or missing) stays NaN; every other stat,
    the infinities included, ends within the bounds: damage in
    [1, 200], fire rate in [0.1, 20], recoil and spread in [0, 1], a
    whole magazine size from 1 to 100, reload time in [500, 5000].  The
    name is there and not empty, the type is there.  So
    [createFromJSON] builds a gun whose stats are all numbers exactly
    when no stat it was given is NaN, and that gun has its stats within
    the bounds, starts with a full magazine of a whole number of
    rounds, from 1 to 100, and is not reloading. *)
Theorem X5_validateConfig_bounds (cfg : JsonConfig) :
  clamped 1 200 (json_damage (json_stats cfg))
    (json_damage (json_stats (validateConfig cfg)))
  /\ clamped 0.1 20 (json_fireRate (json_stats cfg))
       (json_fireRate (json_stats (validateConfig cfg)))
  /\ clamped 0 1 (json_recoil (json_stats cfg))
       (json_recoil (json_stats (validateConfig cfg)))
  /\ clamped 0 1 (json_spread (json_stats cfg))
       (json_spread (json_stats (validateConfig cfg)))
  /\ clamped_count (json_magazineSize (json_stats cfg))
       (json_magazineSize (json_stats (validateConfig cfg)))
  /\ clamped 500 5000 (json_reloadTime (json_stats cfg))
       (json_reloadTime (json_stats (validateConfig cfg)))
  /\ (exists n : string,
        json_name (validateConfig cfg) = Some n /\ n <> ""%string)
  /\ is_Some (json_type (validateConfig cfg))
  /\ (has_NaN (json_stats cfg) -> createFromJSON cfg = None)
  /\ (~ has_NaN (json_stats cfg) -> is_Some (createFromJSON cfg))
  /\ (forall g : GunController,
        createFromJSON cfg = Some g ->
        (exists n : nat, currentAmmo g = INR n /\ (1 <= n <= 100)%nat)
        /\ currentAmmo g = magazineSize (stats (config g))
        /\ isReloading g = false
        /\ 1 <= damage (stats (config g)) <= 200
        /\ 0.1 <= fireRate (stats (config g)) <= 20
        /\ 0 <= recoil (stats (config g)) <= 1
        /\ 0 <= spread (stats (config g)) <= 1
        /\ 500 <= reloadTime (stats (config g)) <= 5000
        /\ name (config g) <> ""%string).
Proof.
  destruct (validateConfig_clamped cfg) as (Cd & Cf & Cr & Csp & Cm & Crt).
  do 6 (split; [assumption|]).
  split; [apply validateConfig_name|].
  split; [by eexists|].
  split; [apply validated_gun_NaN|].
  split; [apply validated_gun_exists|].
  apply validated_gun.
Qed.

(** X6.  [validateConfig] is idempotent: a configuration that has been
    validated is left as it is by a second validation. *)
Theorem X6_validateConfig_idempotent (cfg : JsonConfig) :
  validateConfig (validateConfig cfg) = validateConfig cfg.
Proof.
  unfold validateConfig at 1 3. simpl.
  rewrite clamp_floor_idempotent.
  rewrite !clamp_idempotent by lra.
  f_equal. f_equal.
  destruct (json_name cfg) as [n|]; [|done].
  destruct (decide (n = ""%string)) as [He|Hne]; [done|].
  destruct (decide (n = ""%string)); done.
Qed.

(** X9.  [calculateDamage()], for a draw of [Math.random()] in [0, 1),
    a spread in [0, 1] and a base damage that is not negative: the
    result is a whole number, not negative, at most the base damage
    rounded, and at least the base damage less its [spread] share,
    rounded.  Spread never raises the damage: for a whole base damage
    the result is at most the base damage. *)
Theorem X9_calculateDamage_bounds (rnd : number) (this : GunController) :
  0 <= rnd < 1 ->
  0 <= spread (stats (config this)) <= 1 ->
  0 <= damage (stats (config this)) ->
  exists z : Z,
    calculateDamage rnd this = IZR z
    /\ (0 <= z)%Z
    /\ IZR z <= damage (stats (config this)) + 0.5
    /\ damage (stats (config this)) * (1 - spread (stats (config this))) - 0.5
       < IZR z
    /\ (forall d : Z, damage (stats (config this)) = IZR d -> (z <= d)%Z).
Proof.
  intros Hrnd Hspread Hdamage. unfold calculateDamage, Math_round.
  set (dmg := damage (stats (config this))) in *.
  set (spr := spread (stats (config this))) in *.
  assert (Hq : 0 <= rnd * spr <= spr) by nra.
  set (q := rnd * spr) in *.
  set (v := dmg * (1 - q)).
  assert (Hlow : dmg * (1 - spr) <= v) by (unfold v; nra).
  assert (Hhigh : v <= dmg) by (unfold v; nra).
  assert (H0 : 0 <= v) by (unfold v; nra).
  pose proof (Zfloor_bound (v + 0.5)) as [Hfl Hfu].
  exists (Zfloor (v + 0.5)).
  split; [done|]. split; [apply (Zfloor_lub 0); lra|].
  split; [lra|]. split; [lra|].
  intros d Hd. apply Z.lt_succ_r, lt_IZR. rewrite succ_IZR. lra.
Qed.

Lemma X9_calculateDamage_bounds_witness :
  exists z : Z,
    calculateDamage 0.5 (new_GunController rifle_config) = IZR z
    /\ (0 <= z <= 35)%Z.
Proof.
  destruct (X9_calculateDamage_bounds 0.5 (new_GunController rifle_config))
    as (z & Hz & H0 & _ & _ & Hd).
  - lra.
  - simpl. lra.
  - simpl. lra.
  - exists z. split; [exact Hz|]. split; [exact H0|].
    apply Hd. reflexivity.
Defined.

(** X10.  [getRecoilOffset()], for two draws of [Math.random()] in
    [0, 1) and a recoil that is not negative: [y] is never positive
    (the kick is never downward) and is above [-15 * recoil]; [x] lies
    from [-5 * recoil] to [5 * recoil], either side of 0. *)
Theorem X10_getRecoilOffset_bounds (rnd1 rnd2 : number)
    (this : GunController) :
  0 <= rnd1 < 1 ->
  0 <= rnd2 < 1 ->
  0 <= recoil (stats (config this)) ->
  - 5 * recoil (stats (config this))
    <= fst (getRecoilOffset rnd1 rnd2 this)
    <= 5 * recoil (stats (config this))
  /\ - 15 * recoil (stats (config this))
       <= snd (getRecoilOffset rnd1 rnd2 this)
       <= 0
  /\ (0 < recoil (stats (config this)) ->
      fst (getRecoilOffset rnd1 rnd2 this) < 5 * recoil (stats (config this))
      /\ - 15 * recoil (stats (config this))
         < snd (getRecoilOffset rnd1 rnd2 this)).
Proof.
  intros H1 H2 Hrec. unfold getRecoilOffset. simpl.
  set (rec := recoil (stats (config this))) in *.
  repeat split; try nra.
Qed.

Lemma X10_getRecoilOffset_bounds_witness :
  - 15 * 0.4
    <= snd (getRecoilOffset 0.25 0.75 (new_GunController rifle_config))
    <= 0.
Proof.
  destruct (X10_getRecoilOffset_bounds 0.25 0.75
              (new_GunController rifle_config)) as (_ & Hy & _).
  - lra.
  - lra.
  - simpl. lra.
  - exact Hy.
Defined.



End GunSpec.

(** ** The player-state reducer *)

Module GameSpec.
Import Game.

Lemma dispatchAll_snoc (actions : list GameAction) (a : GameAction) :
  dispatchAll (actions ++ [a]) = gameReducer (dispatchAll actions) a.
Proof. unfold dispatchAll. rewrite foldl_app. reflexivity. Qed.

(** [ammo] is a count of at most 30 rounds, and [maxAmmo] stays 30. *)
Lemma ammo_invariant (actions : list GameAction) :
  exists k : nat,
    ammo (dispatchAll actions) = INR k
    /\ (k <= 30)%nat
    /\ maxAmmo (dispatchAll actions) = 30.
Proof.
  induction actions as [|a actions IH] using rev_ind.
  - exists 30%nat. split; [|done]. rewrite INR_IZR_INZ. reflexivity.
  - rewrite dispatchAll_snoc. destruct IH as (k & Hk & Hle & Hmax).
    assert (Hfull : (30 : R) = INR 30) by (rewrite INR_IZR_INZ; reflexivity).
    destruct a; simpl; try (by exists k).
    + case_bool_decide as Hz; [by exists k|].
      destruct k as [|k]; [simpl in Hk; lra|].
      exists k. simpl. rewrite S_INR in Hk. split; [lra|]. split; [lia|done].
    + exists 30%nat. rewrite Hmax. done.
    + destruct (currentMission (dispatchAll actions)); by exists k.
    + by exists 30%nat.
Qed.

(** With damage and healing given as amounts, [health] stays between 0
    and [maxHealth], and [maxHealth] stays 100. *)
Lemma health_invariant (actions : list GameAction) :
  Forall health_amount actions ->
  0 <= health (dispatchAll actions) <= maxHealth (dispatchAll actions)
  /\ maxHealth (dispatchAll actions) = 100.
Proof.
  induction actions as [|a actions IH] using rev_ind; intros Hall.
  - unfold dispatchAll. simpl. lra.
  - apply Forall_app in Hall as [Hall Ha].
    apply Forall_cons in Ha as [Ha _].
    rewrite dispatchAll_snoc. destruct (IH Hall) as [Hh Hmax].
    destruct a; simpl in *;
      repeat match goal with
      | |- context [Rmax ?a ?b] => unfold Rmax; destruct (Rle_dec a b)
      | |- context [Rmin ?a ?b] => unfold Rmin; destruct (Rle_dec a b)
      | |- context [bool_decide ?P] => destruct (bool_decide P)
      | |- context [currentMission ?s] => destruct (currentMission s)
      end; simpl; lra.
Qed.

(** With rewards and score payloads given as amounts, the reward of the
    current mission is not negative. *)
Lemma mission_invariant (actions : list GameAction) (m : Mission) :
  Forall score_amount actions ->
  currentMission (dispatchAll actions) = Some m ->
  0 <= reward m.
Proof.
  revert m. induction actions as [|a actions IH] using rev_ind;
    intros m Hall.
  - unfold dispatchAll. simpl. discriminate.
  - apply Forall_app in Hall as [Hall Ha].
    apply Forall_cons in Ha as [Ha _].
    rewrite dispatchAll_snoc.
    destruct a; simpl in *; try case_bool_decide; simpl;
      try (by apply IH); try discriminate.
    + intros [= ->]. done.
    + destruct (currentMission (dispatchAll actions)) eqn:Hcur; simpl;
        [|rewrite Hcur]; discriminate.
Qed.

(** C5, as stated, fails: a negative damage payload takes [health]
    above [maxHealth], a negative healing payload takes it below 0, and
    a negative score payload lowers [score] without a [RESET]. *)
Lemma C5_payload_counterexample :
  maxHealth (dispatchAll [TAKE_DAMAGE (-50)])
    < health (dispatchAll [TAKE_DAMAGE (-50)])
  /\ health (dispatchAll [HEAL (-150)]) < 0
  /\ score (gameReducer (dispatchAll []) (ADD_SCORE (-10)))
       < score (dispatchAll []).
Proof.
  unfold dispatchAll. simpl. unfold Rmax, Rmin.
  repeat destruct (Rle_dec _ _); lra.
Qed.

(** C5, amended.  From the initial state, after any sequence of
    actions: [ammo] is between 0 and [maxAmmo]; [health] is between 0
    and [maxHealth] when the payloads of [TAKE_DAMAGE] and [HEAL] are
    not negative; [score] is not lowered by any action other than
    [RESET] when the payloads of [ADD_SCORE] and the rewards of the
    missions set are not negative; and [SHOOT] with [ammo] at 0 leaves
    [ammo] at 0. *)
Theorem C5_reducer_invariant (actions : list GameAction) :
  0 <= ammo (dispatchAll actions) <= maxAmmo (dispatchAll actions)
  /\ (Forall health_amount actions ->
      0 <= health (dispatchAll actions) <= maxHealth (dispatchAll actions))
  /\ (Forall score_amount actions ->
      forall a : GameAction,
        score_amount a ->
        a <> RESET ->
        score (dispatchAll actions)
          <= score (gameReducer (dispatchAll actions) a))
  /\ (ammo (dispatchAll actions) = 0 ->
      gameReducer (dispatchAll actions) SHOOT = dispatchAll actions).
Proof.
  split; [|split; [|split]].
  - destruct (ammo_invariant actions) as (k & Hk & Hle & Hmax).
    rewrite Hk, Hmax. split; [apply pos_INR|].
    apply le_INR in Hle.
    assert (INR 30 = 30) by (rewrite INR_IZR_INZ; reflexivity). lra.
  - intros Hall. apply (health_invariant actions Hall).
  - intros Hall a Ha Hreset.
    destruct a; simpl in *; try case_bool_decide; simpl; try lra; try done.
    destruct (currentMission (dispatchAll actions)) as [m|] eqn:Hm;
      simpl; [|lra].
    pose proof (mission_invariant actions m Hall Hm). lra.
  - intros Hz. simpl. rewrite bool_decide_eq_true_2 by lra. reflexivity.
Qed.

Lemma C5_reducer_invariant_witness :
  0 <= health (dispatchAll [TAKE_DAMAGE 150; HEAL 20; SHOOT; ADD_SCORE 5])
    <= maxHealth (dispatchAll [TAKE_DAMAGE 150; HEAL 20; SHOOT; ADD_SCORE 5])
  /\ score (dispatchAll [TAKE_DAMAGE 150; HEAL 20; SHOOT; ADD_SCORE 5])
       <= score
            (gameReducer
               (dispatchAll [TAKE_DAMAGE 150; HEAL 20; SHOOT; ADD_SCORE 5])
               (SET_MISSION sample_mission)).
Proof.
  destruct (C5_reducer_invariant [TAKE_DAMAGE 150; HEAL 20; SHOOT; ADD_SCORE 5])
    as (_ & Hhealth & Hscore & _).
  split.
  - apply Hhealth. repeat constructor; simpl; lra.
  - apply Hscore.
    + repeat constructor; simpl; lra.
    + simpl. lra.
    + discriminate.
Defined.

(** C6.  [COMPLETE_MISSION] with a current mission [m] adds [reward m]
    to [score], clears [currentMission] and changes no other field;
    with no current mission it returns the state it was given.  Hence
    [SET_MISSION m] followed by [COMPLETE_MISSION] raises [score] by
    exactly [reward m] and leaves no current mission. *)
Theorem C6_complete_mission (state : GameState) :
  (forall m : Mission,
     currentMission state = Some m ->
     gameReducer state COMPLETE_MISSION
     = {| health := health state;
          maxHealth := maxHealth state;
          ammo := ammo state;
          maxAmmo := maxAmmo state;
          playerLevel := playerLevel state;
          position := position state;
          currentMission := None;
          equippedWeapon := equippedWeapon state;
          score := score state + reward m |})
  /\ (currentMission state = None ->
      gameReducer state COMPLETE_MISSION = state)
  /\ (forall m : Mission,
        score (gameReducer (gameReducer state (SET_MISSION m)) COMPLETE_MISSION)
        = score state + reward m
        /\ currentMission
             (gameReducer (gameReducer state (SET_MISSION m)) COMPLETE_MISSION)
           = None).
Proof.
  split; [|split].
  - intros m Hm. simpl. rewrite Hm. reflexivity.
  - intros Hm. simpl. rewrite Hm. reflexivity.
  - intros m. simpl. done.
Qed.

Lemma C6_complete_mission_witness :
  score
    (gameReducer (gameReducer initialState (SET_MISSION sample_mission))
       COMPLETE_MISSION)
  = 0 + 500
  /\ gameReducer initialState COMPLETE_MISSION = initialState.
Proof.
  destruct (C6_complete_mission initialState) as (_ & Hnone & Hset).
  split.
  - apply (Hset sample_mission).
  - apply Hnone. reflexivity.
Defined.

(** ** More on the reducer *)

Lemma dispatchAll_app (pre post : list GameAction) :
  dispatchAll (pre ++ post) = foldl gameReducer (dispatchAll pre) post.
Proof. unfold dispatchAll. apply foldl_app. Qed.

(** X24.  [SHOOT] dispatched [k] times on a state with [n] rounds
    leaves [n - k] rounds, and none once [k] reaches [n]; nothing but
    the ammo changes. *)
Theorem X24_shoot_k_times (k n : nat) (state : GameState) :
  ammo state = INR n ->
  foldl gameReducer state (replicate k SHOOT)
  = with_ammo (INR (n - k)) state.
Proof.
  revert n state. induction k as [|k IH]; intros n state Hn.
  - simpl. rewrite Nat.sub_0_r, <- Hn. by destruct state.
  - simpl. destruct n as [|n].
    + rewrite bool_decide_eq_true_2 by (rewrite Hn; simpl; lra).
      by apply (IH 0%nat).
    + rewrite bool_decide_eq_false_2
        by (rewrite Hn, S_INR; pose proof (pos_INR n); lra).
      rewrite (IH n); [done|]. simpl. rewrite Hn, S_INR. lra.
Qed.

Lemma X24_shoot_k_times_witness :
  ammo (foldl gameReducer initialState (replicate 31 SHOOT)) = 0.
Proof.
  rewrite (X24_shoot_k_times 31 30 initialState).
  - reflexivity.
  - rewrite INR_IZR_INZ. reflexivity.
Defined.

(** No sequence of actions changes [maxHealth], [maxAmmo] or
    [playerLevel]: in every state reached from the initial one they are
    100, 30 and 1. *)
Lemma limits_are_fixed (actions : list GameAction) :
  maxHealth (dispatchAll actions) = 100
  /\ maxAmmo (dispatchAll actions) = 30
  /\ playerLevel (dispatchAll actions) = 1.
Proof.
  induction actions as [|a actions IH] using rev_ind; [done|].
  rewrite dispatchAll_snoc.
  destruct a; simpl; try done;
    [case_bool_decide; done
    |destruct (currentMission (dispatchAll actions)); done].
Qed.

(** X27.  [RESET] forgets everything before it: the state after a
    sequence of actions with a [RESET] in it is the state after the
    actions that follow the [RESET] alone. *)
Theorem X27_reset_forgets (pre post : list GameAction) :
  dispatchAll (pre ++ RESET :: post) = dispatchAll post.
Proof.
  rewrite dispatchAll_app. simpl. reflexivity.
Qed.

(** X28.  A reward is paid once: [COMPLETE_MISSION] dispatched twice is
    [COMPLETE_MISSION] dispatched once.  And a mission that is replaced
    is not paid: after [SET_MISSION m1], [SET_MISSION m2] and
    [COMPLETE_MISSION] the score has gone up by the reward of [m2]
    alone. *)
Theorem X28_reward_paid_once (state : GameState) (m1 m2 : Mission) :
  gameReducer (gameReducer state COMPLETE_MISSION) COMPLETE_MISSION
  = gameReducer state COMPLETE_MISSION
  /\ score
       (foldl gameReducer state
          [SET_MISSION m1; SET_MISSION m2; COMPLETE_MISSION])
     = score state + reward m2
  /\ score
       (foldl gameReducer state
          [SET_MISSION m1; COMPLETE_MISSION; COMPLETE_MISSION])
     = score state + reward m1.
Proof.
  split; [|done]. simpl.
  destruct (currentMission state) eqn:Hm; simpl; [done|]. by rewrite Hm.
Qed.

(** X29.  What each action leaves alone.  [health] is changed by
    [TAKE_DAMAGE], [HEAL] and [RESET] only; [ammo] by [SHOOT], [RELOAD]
    and [RESET] only; [score] by [COMPLETE_MISSION], [ADD_SCORE] and
    [RESET] only; [position] by [MOVE] and [RESET] only; the equipped
    weapon by [EQUIP_WEAPON] and [RESET] only, so that equipping a
    weapon changes neither [ammo] nor [maxAmmo]. *)
Theorem X29_reducer_frame (state : GameState) (a : GameAction) :
  (health (gameReducer state a) <> health state ->
   (exists p, a = TAKE_DAMAGE p) \/ (exists p, a = HEAL p) \/ a = RESET)
  /\ (ammo (gameReducer state a) <> ammo state ->
      a = SHOOT \/ a = RELOAD \/ a = RESET)
  /\ (score (gameReducer state a) <> score state ->
      a = COMPLETE_MISSION \/ (exists p, a = ADD_SCORE p) \/ a = RESET)
  /\ (position (gameReducer state a) <> position state ->
      (exists p, a = MOVE p) \/ a = RESET)
  /\ (equippedWeapon (gameReducer state a) <> equippedWeapon state ->
      (exists p, a = EQUIP_WEAPON p) \/ a = RESET).
Proof.
  destruct a; simpl;
    try case_bool_decide;
    try destruct (currentMission state); simpl;
    repeat split; intros Hne; try done; eauto.
Qed.

End GameSpec.

(** ** Hostile actors *)

Module NPCSpec.
Import NPCSystem.

Lemma transitionTo_state (tnow : number) (s : NPCState)
    (this : NPCController) :
  state (npc (transitionTo tnow s this)) = s.
Proof.
  unfold transitionTo. destruct (decide (state (npc this) ≠ s)) as [|Heq].
  - reflexivity.
  - destruct (decide (state (npc this) = s)); [done|]. by destruct Heq.
Qed.

Lemma transitionTo_npc (tnow : number) (s : NPCState)
    (this : NPCController) :
  npc (transitionTo tnow s this) = set_state s (npc this).
Proof.
  unfold transitionTo. destruct (decide (state (npc this) ≠ s)) as [|Heq].
  - reflexivity.
  - destruct (decide (state (npc this) = s)) as [<-|]; [|by destruct Heq].
    by destruct (npc this).
Qed.

Lemma handlePatrolState_state (tnow d dt : number) (this : NPCController)
    (h : Heap) :
  state_after (handlePatrolState tnow d dt this h)
  = if bool_decide (d <= detectionRange (npc this)) then aggressive
    else state (npc this).
Proof.
  unfold handlePatrolState, state_after.
  case_bool_decide; simpl; [apply transitionTo_state|].
  destruct (patrolPoints (npc this)); [|done].
  case_bool_decide; [|done].
  destruct (_ !! _); [|done].
  case_bool_decide; done.
Qed.

Lemma handleAggressiveState_state (tnow d dt : number)
    (player : NPCPosition) (this : NPCController) (h : Heap) :
  state (npc (snd (handleAggressiveState tnow player d dt this h)))
  = if bool_decide (d > detectionRange (npc this) * 1.5) then
      match patrolPoints (npc this) with
      | Some _ => patrol
      | None => idle
      end
    else state (npc this).
Proof.
  unfold handleAggressiveState.
  case_bool_decide; simpl.
  - rewrite transitionTo_state. by destruct (patrolPoints (npc this)).
  - case_bool_decide; done.
Qed.

(** The state after an [update], case by case. *)
Lemma update_state (now tnow : number) (player : NPCPosition)
    (this : NPCController) (h : Heap) :
  state_after (update now tnow player this h)
  = match state (npc this) with
    | aggressive =>
        if bool_decide
             (getDistanceTo h this player > detectionRange (npc this) * 1.5)
        then match patrolPoints (npc this) with
             | Some _ => patrol
             | None => idle
             end
        else aggressive
    | s =>
        if bool_decide (getDistanceTo h this player <= detectionRange (npc this))
        then aggressive
        else s
    end.
Proof.
  unfold update. simpl.
  change (getDistanceTo h (set_lastUpdateTime now this) player)
    with (getDistanceTo h this player).
  destruct (state (npc this)) eqn:Hs.
  - unfold state_after, handleIdleState. simpl.
    case_bool_decide; [apply transitionTo_state|done].
  - rewrite handlePatrolState_state. simpl. by rewrite Hs.
  - unfold state_after. simpl. rewrite handleAggressiveState_state.
    simpl. by rewrite Hs.
Qed.

(** An [update] of an actor whose waypoint index is in its route
    returns: it does not throw. *)
Lemma update_returns (now tnow : number) (player : NPCPosition)
    (this : NPCController) (h : Heap) :
  index_in_route h this ->
  returns (update now tnow player this h) = true.
Proof.
  intros Hidx. unfold update. simpl.
  destruct (state (npc this)); [done| |done].
  unfold handlePatrolState. simpl.
  case_bool_decide; [done|].
  destruct (patrolPoints (npc this)) as [a|] eqn:Ha; [|done].
  case_bool_decide as Hlen; [|done].
  destruct (Hidx a Ha) as [Hnil|Hlt].
  - rewrite Hnil in Hlen. simpl in Hlen. lia.
  - apply lookup_lt_is_Some_2 in Hlt as [t Ht]. rewrite Ht.
    case_bool_decide; done.
Qed.

(** C2.  One [update], with [d] the distance from the actor to the
    player.  An idle or patrolling actor becomes aggressive exactly
    when [d <= detectionRange], and otherwise keeps its state; so at
    [detectionRange + eps] it does not transition.  An aggressive actor
    leaves the aggressive state exactly when
    [d > detectionRange * 1.5], for [patrol] when it has a patrol route
    and for [idle] when it has none; for [d] above [detectionRange] and
    up to [detectionRange * 1.5] it stays aggressive. *)
Theorem C2_update_transitions (now tnow : number) (player : NPCPosition)
    (this : NPCController) (h : Heap) :
  let d := getDistanceTo h this player in
  let range := detectionRange (npc this) in
  let s' := state_after (update now tnow player this h) in
  (state (npc this) = idle \/ state (npc this) = patrol ->
   (s' = aggressive <-> d <= range)
   /\ (~ d <= range -> s' = state (npc this))
   /\ (forall eps, 0 < eps -> d = range + eps -> s' = state (npc this)))
  /\ (state (npc this) = aggressive ->
      (s' <> aggressive <-> d > range * 1.5)
      /\ (d > range * 1.5 ->
          forall a, patrolPoints (npc this) = Some a -> s' = patrol)
      /\ (d > range * 1.5 -> patrolPoints (npc this) = None -> s' = idle)
      /\ (range < d <= range * 1.5 -> s' = aggressive)).
Proof.
  intros d range s'. subst s'. rewrite update_state. fold d range.
  split.
  - intros Hs.
    assert (Hne : state (npc this) <> aggressive)
      by (destruct Hs as [Hs|Hs]; rewrite Hs; discriminate).
    assert (Heq :
      match state (npc this) with
      | aggressive =>
          if bool_decide (d > range * 1.5) then
            match patrolPoints (npc this) with
            | Some _ => patrol
            | None => idle
            end
          else aggressive
      | s => if bool_decide (d <= range) then aggressive else s
      end
      = if bool_decide (d <= range) then aggressive else state (npc this))
      by (destruct Hs as [Hs|Hs]; rewrite Hs; reflexivity).
    rewrite Heq. clear Heq.
    case_bool_decide as Hd.
    + split; [done|]. split; [done|]. intros eps Heps Hdist. lra.
    + split; [split; [done|intros; lra]|]. done.
  - intros Hs. rewrite Hs.
    case_bool_decide as Hd.
    + split.
      { split; [done|]. intros _.
        destruct (patrolPoints (npc this)); discriminate. }
      split; [intros _ a Ha; by rewrite Ha|].
      split; [intros _ Ha; by rewrite Ha|].
      intros [_ Hle]. unfold Rgt in Hd. lra.
    + split; [split; [done|intros; contradiction]|].
      split; [intros; contradiction|].
      split; [intros; contradiction|]. done.
Qed.

Lemma spawned_hostile_position :
  deref (fst spawned_hostile) (position (npc (snd spawned_hostile)))
  = mkPosition 0 0.
Proof. reflexivity. Qed.

Lemma C2_update_transitions_witness :
  state_after
    (update 16 16 (mkPosition 90 120) (snd spawned_hostile)
       (fst spawned_hostile))
  = aggressive
  /\ state_after
       (update 16 16 (mkPosition 120 120) (snd spawned_hostile)
          (fst spawned_hostile))
     = idle.
Proof.
  split.
  - destruct (C2_update_transitions 16 16 (mkPosition 90 120)
                (snd spawned_hostile) (fst spawned_hostile)) as [Hidle _].
    destruct Hidle as (Hiff & _); [left; reflexivity|].
    apply Hiff. unfold getDistanceTo. rewrite spawned_hostile_position.
    simpl. unfold DEFAULT_detectionRange.
    replace ((90 - 0) * (90 - 0) + (120 - 0) * (120 - 0))
      with (150 * 150) by lra.
    rewrite sqrt_square; lra.
  - destruct (C2_update_transitions 16 16 (mkPosition 120 120)
                (snd spawned_hostile) (fst spawned_hostile)) as [Hidle _].
    destruct Hidle as (_ & Hkeep & _); [left; reflexivity|].
    apply Hkeep. unfold getDistanceTo. rewrite spawned_hostile_position.
    simpl. unfold DEFAULT_detectionRange. intros Hle.
    assert (Hlt : sqrt (150 * 150)
                  < sqrt ((120 - 0) * (120 - 0) + (120 - 0) * (120 - 0)))
      by (apply sqrt_lt_1; lra).
    rewrite sqrt_square in Hlt; lra.
Defined.

(** [takeDamage], field by field. *)
Lemma takeDamage_npc (tnow amount : number) (this : NPCController) :
  npc (fst (takeDamage tnow amount this))
  = set_state aggressive
      (set_health (Rmax 0 (health (npc this) - amount)) (npc this)).
Proof.
  unfold takeDamage. simpl.
  destruct (decide (state (npc this) ≠ aggressive)) as [Hne|Heq]; simpl.
  - rewrite transitionTo_npc. reflexivity.
  - destruct (decide (state (npc this) = aggressive)) as [Hs|];
      [|by destruct Heq].
    unfold set_state, set_health. simpl. by rewrite Hs.
Qed.

Lemma takeDamage_returned (tnow amount : number) (this : NPCController) :
  snd (takeDamage tnow amount this)
  = bool_decide (Rmax 0 (health (npc this) - amount) <= 0).
Proof.
  unfold takeDamage. simpl.
  destruct (decide (state (npc this) ≠ aggressive)); simpl; [|done].
  rewrite transitionTo_npc. reflexivity.
Qed.

Lemma takeDamage_times (tnow amount : number) (this : NPCController) :
  lastUpdateTime (fst (takeDamage tnow amount this)) = lastUpdateTime this
  /\ stateTransitionTime (fst (takeDamage tnow amount this))
     = if decide (state (npc this) = aggressive)
       then stateTransitionTime this
       else tnow.
Proof.
  unfold takeDamage, transitionTo. simpl.
  destruct (decide (state (npc this) = aggressive)) as [Hs|Hs].
  - destruct (decide (state (npc this) ≠ aggressive)); [done|]. done.
  - destruct (decide (state (npc this) ≠ aggressive)); [|done]. done.
Qed.

(** C3, as stated, fails on an actor that is already at 0 health:
    [takeDamage(0)] returns true there, not false. *)
Lemma C3_zero_damage_counterexample :
  health (npc defeated_hostile) = 0
  /\ snd (takeDamage 2 0 defeated_hostile) = true.
Proof.
  assert (Hz : health (npc defeated_hostile) = 0).
  { unfold defeated_hostile. rewrite takeDamage_npc. simpl.
    unfold DEFAULT_health, Rmax. destruct (Rle_dec _ _); lra. }
  split; [exact Hz|].
  rewrite takeDamage_returned. rewrite Hz.
  apply bool_decide_eq_true. unfold Rmax. destruct (Rle_dec _ _); lra.
Qed.

(** C3, amended.  For every amount, [takeDamage(amount)] sets [health]
    to [max(0, health - amount)], leaves the actor aggressive, and
    returns true exactly when [health] is now 0; with [amount >= health]
    it returns true and [health] is exactly 0.  [takeDamage(0)] on an
    actor whose health is not negative changes nothing but the state
    (and the time of the transition, when there is one); it returns
    false when the actor has health left, and true when the actor is
    already at 0. *)
Theorem C3_takeDamage (tnow amount : number) (this : NPCController) :
  health (npc (fst (takeDamage tnow amount this)))
  = Rmax 0 (health (npc this) - amount)
  /\ state (npc (fst (takeDamage tnow amount this))) = aggressive
  /\ (snd (takeDamage tnow amount this) = true
      <-> health (npc (fst (takeDamage tnow amount this))) = 0)
  /\ (amount >= health (npc this) ->
      snd (takeDamage tnow amount this) = true
      /\ health (npc (fst (takeDamage tnow amount this))) = 0)
  /\ (0 <= health (npc this) ->
      npc (fst (takeDamage tnow 0 this)) = set_state aggressive (npc this)
      /\ lastUpdateTime (fst (takeDamage tnow 0 this)) = lastUpdateTime this
      /\ (state (npc this) = aggressive ->
          fst (takeDamage tnow 0 this) = this))
  /\ (0 < health (npc this) -> snd (takeDamage tnow 0 this) = false)
  /\ (health (npc this) = 0 -> snd (takeDamage tnow 0 this) = true).
Proof.
  split; [by rewrite takeDamage_npc|].
  split; [by rewrite takeDamage_npc|].
  split; [|split; [|split; [|split]]].
  - rewrite takeDamage_npc, takeDamage_returned. simpl.
    rewrite bool_decide_eq_true. unfold Rmax.
    destruct (Rle_dec _ _); lra.
  - intros Hge. rewrite takeDamage_npc, takeDamage_returned. simpl.
    rewrite bool_decide_eq_true. unfold Rmax.
    destruct (Rle_dec _ _); lra.
  - intros Hpos.
    assert (Hh : Rmax 0 (health (npc this) - 0) = health (npc this))
      by (unfold Rmax; destruct (Rle_dec _ _); lra).
    assert (Hsame : set_health (health (npc this)) (npc this) = npc this)
      by (by destruct (npc this)).
    split; [by rewrite takeDamage_npc, Hh, Hsame|].
    split; [apply takeDamage_times|].
    intros Hs. unfold takeDamage. simpl. rewrite Hh, Hsame.
    destruct (decide (state (npc this) ≠ aggressive)); [done|].
    by destruct this.
  - intros Hpos. rewrite takeDamage_returned.
    apply bool_decide_eq_false. unfold Rmax.
    destruct (Rle_dec _ _); lra.
  - intros Hz. rewrite takeDamage_returned.
    apply bool_decide_eq_true. unfold Rmax.
    destruct (Rle_dec _ _); lra.
Qed.

Lemma C3_takeDamage_witness :
  snd (takeDamage 1 130 (snd spawned_hostile)) = true
  /\ health (npc (fst (takeDamage 1 130 (snd spawned_hostile)))) = 0
  /\ snd (takeDamage 1 0 (snd spawned_hostile)) = false
  /\ snd (takeDamage 2 0 defeated_hostile) = true.
Proof.
  destruct (C3_takeDamage 1 130 (snd spawned_hostile))
    as (_ & _ & _ & Hlethal & _ & Halive & _).
  destruct (C3_takeDamage 2 0 defeated_hostile)
    as (_ & _ & _ & _ & _ & _ & Hdead).
  destruct Hlethal as [Hret Hzero];
    [simpl; unfold DEFAULT_health; lra|].
  split; [exact Hret|]. split; [exact Hzero|].
  split.
  - apply Halive. simpl. unfold DEFAULT_health. lra.
  - apply Hdead. unfold defeated_hostile. rewrite takeDamage_npc. simpl.
    unfold DEFAULT_health, Rmax. destruct (Rle_dec _ _); lra.
Defined.

(** [spawnNPC] never throws, and stores the new controller under the
    id whatever the registry held there. *)
Lemma spawnNPC_returns (now : number) (i : string) (pos : NPCPosition)
    (config : NPCConfig) (npcs : NPCManager) (h : Heap) :
  spawnNPC now i pos config npcs h
  = Returns
      (fst (new_NPCController now i pos config h),
       <[i := snd (new_NPCController now i pos config h)]> npcs)
      (snd (new_NPCController now i pos config h)).
Proof.
  unfold spawnNPC. by destruct (new_NPCController now i pos config h).
Qed.

(** C7, as stated, fails: spawning under an id the registry already
    holds returns as usual, and the actor stored under the id is now
    the new one ("Guard" where "Hostile 1" was). *)
Lemma C7_duplicate_spawn_counterexample :
  name <$> (npc <$> registry_with_hostile !! "enemy_0"%string)
  = Some "Hostile 1"%string
  /\ returns
       (spawnNPC 5 "enemy_0" (mkPosition 9 9) (guard_config (snd empty_route))
          registry_with_hostile (fst spawned_hostile))
     = true
  /\ name
       <$> (npc
              <$> snd
                    (final
                       (spawnNPC 5 "enemy_0" (mkPosition 9 9)
                          (guard_config (snd empty_route))
                          registry_with_hostile (fst spawned_hostile)))
                  !! "enemy_0"%string)
     = Some "Guard"%string.
Proof.
  split; [reflexivity|]. rewrite spawnNPC_returns. simpl.
  split; [reflexivity|]. rewrite lookup_insert_eq. reflexivity.
Qed.

(** C7, amended.  For every registry and every id, already present or
    not, [spawnNPC] returns the freshly constructed controller without
    throwing; afterwards the registry holds that controller under the
    id, in place of any controller it held there before, and holds
    under every other id what it held before. *)
Theorem C7_spawn_overwrites (now : number) (i : string) (pos : NPCPosition)
    (config : NPCConfig) (npcs : NPCManager) (h : Heap) :
  returns (spawnNPC now i pos config npcs h) = true
  /\ snd (final (spawnNPC now i pos config npcs h)) !! i
     = Some (snd (new_NPCController now i pos config h))
  /\ fst (final (spawnNPC now i pos config npcs h))
     = fst (new_NPCController now i pos config h)
  /\ (forall j : string,
        j <> i ->
        snd (final (spawnNPC now i pos config npcs h)) !! j = npcs !! j)
  /\ (forall old : NPCController,
        npcs !! i = Some old ->
        spawnNPC now i pos config npcs h
        = spawnNPC now i pos config (delete i npcs) h).
Proof.
  rewrite !spawnNPC_returns. simpl.
  split; [done|]. split; [apply lookup_insert_eq|]. split; [done|].
  split.
  - intros j Hj. by apply lookup_insert_ne.
  - intros old _. by rewrite insert_delete_eq.
Qed.

Lemma C7_spawn_overwrites_witness :
  spawnNPC 5 "enemy_0" (mkPosition 9 9) hostile_config registry_with_hostile
    (fst spawned_hostile)
  = spawnNPC 5 "enemy_0" (mkPosition 9 9) hostile_config
      (delete "enemy_0"%string registry_with_hostile) (fst spawned_hostile).
Proof.
  destruct (C7_spawn_overwrites 5 "enemy_0" (mkPosition 9 9) hostile_config
              registry_with_hostile (fst spawned_hostile))
    as (_ & _ & _ & _ & Hold).
  apply (Hold (snd spawned_hostile)).
  apply lookup_insert_eq.
Defined.

(** The state a new actor starts in is decided by whether a patrol
    route was passed, not by what the route holds. *)
Lemma new_NPCController_state (now : number) (i : string)
    (pos : NPCPosition) (config : NPCConfig) (h : Heap) :
  state (npc (snd (new_NPCController now i pos config h)))
  = match config_patrolPoints config with
    | Some _ => patrol
    | None => idle
    end.
Proof.
  unfold new_NPCController. simpl.
  by destruct (config_patrolPoints config).
Qed.

(** C8 on the code: a guard constructed with an empty array as its
    patrol route starts in [patrol], where the claim has [idle]. *)
Theorem C8_empty_route_starts_in_patrol :
  deref_array (fst empty_route) (snd empty_route) = []
  /\ state
       (npc
          (snd
             (new_NPCController 0 "guard_1" (mkPosition 0 0)
                (guard_config (snd empty_route)) (fst empty_route))))
     = patrol.
Proof. split; [reflexivity|]. by rewrite new_NPCController_state. Qed.

(** The position object a snapshot refers to is the actor's own: a
    coordinate assigned through the snapshot is the actor's coordinate
    from then on.  The same goes for the patrol route. *)
Lemma getNPC_shares_position (this : NPCController) (h : Heap)
    (v : number) :
  on_snapshot h (getNPC this) (AssignX (position (getNPC this)) v)
  /\ deref (perform (AssignX (position (getNPC this)) v) h)
           (position (npc this))
     = mkPosition v (y (deref h (position (npc this)))).
Proof.
  split; [by left|].
  unfold getNPC, perform, deref, write_position. simpl.
  by rewrite lookup_insert_eq.
Qed.

Lemma getNPC_shares_route (this : NPCController) (h : Heap) (a : ref)
    (elems : list ref) :
  patrolPoints (npc this) = Some a ->
  on_snapshot h (getNPC this) (AssignElements a elems)
  /\ deref_array (perform (AssignElements a elems) h) a = elems.
Proof.
  intros Ha. split; [done|].
  unfold perform, deref_array, write_array. simpl.
  by rewrite lookup_insert_eq.
Qed.

(** [getPosition()] does hand out a copy: the object it returns is a
    new one holding the actor's coordinates, and nothing assigned to it
    reaches the actor. *)
Lemma getPosition_copies (this : NPCController) (h : Heap) :
  (snd (getPosition this h) ∉ dom (positions h))
  /\ deref (fst (getPosition this h)) (snd (getPosition this h))
     = deref h (position (npc this)).
Proof.
  unfold getPosition, alloc_position. simpl. split; [apply is_fresh|].
  unfold deref at 1. simpl. by rewrite lookup_insert_eq.
Qed.

Lemma getPosition_defensive (this : NPCController) (h : Heap)
    (m : Mutation) :
  allocated h this ->
  on_position (snd (getPosition this h)) m ->
  internal_state (perform m (fst (getPosition this h))) this
  = internal_state h this.
Proof.
  intros [Hpos Hroute] Hm.
  pose proof (is_fresh (dom (positions h))) as Hfresh.
  set (r := fresh (dom (positions h))) in *.
  assert (Hkeep : forall l,
            l ∈ dom (positions h) ->
            deref (perform m (fst (getPosition this h))) l = deref h l).
  { intros l Hl. assert (r <> l) by (intros <-; done).
    unfold getPosition, alloc_position in *. fold r in Hm |- *.
    destruct m as [r' v|r' v|a elems]; simpl in Hm; [subst r'..|done];
      unfold deref, perform, write_position; simpl;
      by rewrite !lookup_insert_ne. }
  assert (Harr : arrays (perform m (fst (getPosition this h))) = arrays h).
  { unfold getPosition, alloc_position in *.
    destruct m as [r' v|r' v|a elems]; simpl in Hm; [done..|done]. }
  unfold internal_state. rewrite (Hkeep _ Hpos). f_equal.
  destruct (patrolPoints (npc this)) as [a|]; [|done].
  cbn [fmap option_fmap option_map].
  assert (Hda : deref_array (perform m (fst (getPosition this h))) a
                = deref_array h a)
    by (unfold deref_array; by rewrite Harr).
  rewrite Hda. f_equal. apply list_fmap_ext. intros k t Ht.
  apply Hkeep. apply (Hroute a t eq_refl). by eapply list_elem_of_lookup_2.
Qed.

(** C9 on the code: a caller that takes the full snapshot of the
    spawned hostile and assigns to the [x] of the snapshot's position
    moves the actor itself, from (0, 0) to (999, 0). *)
Theorem C9_snapshot_is_not_defensive :
  on_snapshot (fst spawned_hostile) (getNPC (snd spawned_hostile))
    (AssignX (position (getNPC (snd spawned_hostile))) 999)
  /\ internal_state (fst spawned_hostile) (snd spawned_hostile)
     = (snd spawned_hostile, mkPosition 0 0, None)
  /\ internal_state
       (perform (AssignX (position (getNPC (snd spawned_hostile))) 999)
          (fst spawned_hostile))
       (snd spawned_hostile)
     = (snd spawned_hostile, mkPosition 999 0, None).
Proof.
  destruct (getNPC_shares_position (snd spawned_hostile)
              (fst spawned_hostile) 999) as [Hon Hx].
  split; [exact Hon|]. split; [reflexivity|].
  unfold internal_state. rewrite Hx. reflexivity.
Qed.

(** ** More on hostile actors *)

Lemma moveTowards_arrays (target : NPCPosition) (dt : number)
    (this : NPCController) (h : Heap) :
  arrays (moveTowards target dt this h) = arrays h.
Proof. unfold moveTowards. case_bool_decide; done. Qed.

(** What an [update] leaves alone: the arrays of the heap, and every
    field of the actor but its state, its waypoint index and its
    times. *)
Lemma update_frame (now tnow : number) (player : NPCPosition)
    (this : NPCController) (h : Heap) :
  arrays (fst (final (update now tnow player this h))) = arrays h
  /\ set_currentPatrolIndex 0 (set_state idle (npc (snd (final (update now tnow player this h)))))
     = set_currentPatrolIndex 0 (set_state idle (npc this)).
Proof.
  unfold update, handleIdleState, handlePatrolState, handleAggressiveState.
  simpl.
  destruct (state (npc this));
    repeat first [case_bool_decide | case_match];
    simpl; rewrite ?transitionTo_npc, ?moveTowards_arrays; done.
Qed.

Lemma update_fields (now tnow : number) (player : NPCPosition)
    (this : NPCController) (h : Heap) :
  patrolPoints (npc (snd (final (update now tnow player this h))))
  = patrolPoints (npc this)
  /\ health (npc (snd (final (update now tnow player this h))))
     = health (npc this)
  /\ maxHealth (npc (snd (final (update now tnow player this h))))
     = maxHealth (npc this)
  /\ position (npc (snd (final (update now tnow player this h))))
     = position (npc this).
Proof.
  destruct (update_frame now tnow player this h) as [_ Hnpc].
  repeat split.
  - by apply (f_equal patrolPoints) in Hnpc.
  - by apply (f_equal health) in Hnpc.
  - by apply (f_equal maxHealth) in Hnpc.
  - by apply (f_equal position) in Hnpc.
Qed.

Lemma update_index_in_route (now tnow : number) (player : NPCPosition)
    (this : NPCController) (h : Heap) :
  index_in_route h this ->
  index_in_route (fst (final (update now tnow player this h)))
    (snd (final (update now tnow player this h))).
Proof.
  intros Hidx a Ha.
  destruct (update_frame now tnow player this h) as [Harr _].
  destruct (update_fields now tnow player this h) as (Hroute & _).
  rewrite Hroute in Ha.
  assert (Hda : deref_array (fst (final (update now tnow player this h))) a
                = deref_array h a)
    by (unfold deref_array; by rewrite Harr).
  rewrite Hda. destruct (Hidx a Ha) as [Hnil|Hlt]; [by left|]. right.
  revert Hlt.
  unfold update, handleIdleState, handlePatrolState, handleAggressiveState.
  simpl. rewrite Ha.
  destruct (state (npc this));
    repeat first [case_bool_decide | case_match];
    simpl; rewrite ?transitionTo_npc; simpl; try done.
  intros _. apply Nat.mod_upper_bound. lia.
Qed.

Lemma perform_op_index_in_route (op : ActorOp) (s : Heap * NPCController) :
  index_in_route (fst s) (snd s) ->
  returns (perform_op op s) = true
  /\ index_in_route (fst (final (perform_op op s)))
       (snd (final (perform_op op s))).
Proof.
  intros Hidx.
  destruct op as [now tnow player|tnow amount|amount]; cbn [perform_op].
  - split; [by apply update_returns|by apply update_index_in_route].
  - split; [done|]. unfold index_in_route in *.
    cbn [perform_op final fst snd]. rewrite takeDamage_npc. simpl.
    apply Hidx.
  - split; [done|]. unfold index_in_route in *. simpl. apply Hidx.
Qed.

(** X12.  An actor that is constructed and then driven through
    [update], [takeDamage] and [heal], in any order, with any clock
    readings, player positions and amounts, never throws: every call
    returns.  (The one throw in [update], on a waypoint index past the
    end of the route, needs the route array to be changed from outside
    the actor.) *)
Theorem X12_actor_never_throws (ops : list ActorOp) (now : number)
    (i : string) (pos : NPCPosition) (config : NPCConfig) (h : Heap) :
  returns (perform_ops ops (new_NPCController now i pos config h)) = true.
Proof.
  assert (H0 : index_in_route (fst (new_NPCController now i pos config h))
                 (snd (new_NPCController now i pos config h))).
  { intros a _. simpl. destruct (deref_array _ a); [by left|right].
    simpl. lia. }
  revert H0. generalize (new_NPCController now i pos config h).
  induction ops as [|op ops IH]; intros s Hs; [done|].
  simpl. destruct (perform_op_index_in_route op s Hs) as [Hret Hidx].
  destruct (perform_op op s) as [s' []|s' e]; [|done].
  by apply IH.
Qed.

Lemma perform_op_health (op : ActorOp) (s : Heap * NPCController) :
  amount_ok op ->
  0 <= health (npc (snd s)) <= maxHealth (npc (snd s)) ->
  0 <= health (npc (snd (final (perform_op op s))))
    <= maxHealth (npc (snd (final (perform_op op s))))
  /\ maxHealth (npc (snd (final (perform_op op s))))
     = maxHealth (npc (snd s)).
Proof.
  intros Hop Hh.
  destruct op as [now tnow player|tnow amount|amount];
    cbn [perform_op final fst snd].
  - destruct (update_fields now tnow player (snd s) (fst s))
      as (_ & -> & -> & _). done.
  - rewrite takeDamage_npc. simpl in *. unfold Rmax.
    destruct (Rle_dec _ _); split; (lra || done).
  - simpl in *. unfold Rmin. destruct (Rle_dec _ _); split; (lra || done).
Qed.

(** X13.  An actor constructed with a health that is not negative (or
    with the default of 100), then driven through [update],
    [takeDamage] and [heal] with amounts that are not negative, has its
    health between 0 and [maxHealth] after every run, and [maxHealth]
    is still the health it was constructed with. *)
Theorem X13_health_within_bounds (ops : list ActorOp) (now : number)
    (i : string) (pos : NPCPosition) (config : NPCConfig) (h : Heap) :
  0 <= default DEFAULT_health (config_health config) ->
  Forall amount_ok ops ->
  0 <= health (npc (snd (final (perform_ops ops (new_NPCController now i pos config h)))))
    <= maxHealth (npc (snd (final (perform_ops ops (new_NPCController now i pos config h)))))
  /\ maxHealth (npc (snd (final (perform_ops ops (new_NPCController now i pos config h)))))
     = default DEFAULT_health (config_health config).
Proof.
  intros H0 Hops.
  assert (Hinit :
    0 <= health (npc (snd (new_NPCController now i pos config h)))
      <= maxHealth (npc (snd (new_NPCController now i pos config h)))
    /\ maxHealth (npc (snd (new_NPCController now i pos config h)))
       = default DEFAULT_health (config_health config))
    by (simpl; lra).
  revert Hinit. generalize (new_NPCController now i pos config h).
  induction Hops as [|op ops Hop Hops IH]; intros s [Hh Hm]; [done|].
  simpl. destruct (perform_op_health op s Hop Hh) as [Hh' Hm'].
  destruct (perform_op op s) as [s' []|s' e]; simpl in *.
  - apply IH. split; [done|congruence].
  - split; [done|congruence].
Qed.

Lemma X13_health_within_bounds_witness :
  0 <= health
         (npc
            (snd
               (final
                  (perform_ops
                     [DoTakeDamage 1 30; DoUpdate 16 16 (mkPosition 9 9);
                      DoHeal 500]
                     (new_NPCController 0 "enemy_0" (mkPosition 0 0)
                        hostile_config empty_heap)))))
    <= 100.
Proof.
  destruct (X13_health_within_bounds
              [DoTakeDamage 1 30; DoUpdate 16 16 (mkPosition 9 9); DoHeal 500]
              0 "enemy_0" (mkPosition 0 0) hostile_config empty_heap)
    as [Hh Hm].
  - simpl. unfold DEFAULT_health. lra.
  - repeat constructor; simpl; lra.
  - rewrite Hm in Hh. exact Hh.
Defined.

(** X14.  Right after [takeDamage], [canAttack()] is the opposite of
    what [takeDamage] returned: an actor that survived the hit can
    attack at once, whatever state it was in, and one that did not
    cannot. *)
Theorem X14_canAttack_after_hit (tnow amount : number)
    (this : NPCController) :
  canAttack (fst (takeDamage tnow amount this))
  = negb (snd (takeDamage tnow amount this)).
Proof.
  unfold canAttack. rewrite takeDamage_npc, takeDamage_returned. simpl.
  repeat case_bool_decide; simpl; try done; lra.
Qed.

(** X15.  Healing brings a defeated actor back.  A hit of at least the
    actor's health leaves it at health 0, unable to attack.  Healing it
    then by a positive amount sets its health to that amount, or to
    [maxHealth] when the amount is larger: positive and within
    [maxHealth] either way.  The heal touches nothing but the health,
    so the actor is still aggressive, and it can attack again. *)
Theorem X15_heal_after_hit (tnow hit amount : number)
    (this : NPCController) :
  health (npc this) <= hit ->
  0 < amount ->
  0 < maxHealth (npc this) ->
  health (npc (fst (takeDamage tnow hit this))) = 0
  /\ canAttack (fst (takeDamage tnow hit this)) = false
  /\ health (npc (heal amount (fst (takeDamage tnow hit this))))
     = Rmin (maxHealth (npc this)) amount
  /\ 0 < health (npc (heal amount (fst (takeDamage tnow hit this))))
       <= maxHealth (npc this)
  /\ state (npc (heal amount (fst (takeDamage tnow hit this)))) = aggressive
  /\ canAttack (heal amount (fst (takeDamage tnow hit this))) = true.
Proof.
  intros Hhit Ha Hmax.
  assert (Hheal : forall a c,
            npc (heal a c)
            = set_health (Rmin (maxHealth (npc c)) (health (npc c) + a))
                (npc c)) by done.
  unfold canAttack. rewrite !Hheal, !takeDamage_npc. simpl.
  assert (H0 : Rmax 0 (health (npc this) - hit) = 0)
    by (unfold Rmax; destruct (Rle_dec _ _); lra).
  rewrite H0.
  assert (Hsum : Rmin (maxHealth (npc this)) (0 + amount)
                 = Rmin (maxHealth (npc this)) amount)
    by (f_equal; lra).
  rewrite Hsum.
  assert (Hpos : 0 < Rmin (maxHealth (npc this)) amount
                 <= maxHealth (npc this))
    by (unfold Rmin; destruct (Rle_dec _ _); lra).
  split; [done|]. split.
  { repeat case_bool_decide; simpl; try done; lra. }
  split; [done|]. split; [done|]. split; [done|].
  repeat case_bool_decide; simpl; try done; lra.
Qed.

Lemma X15_heal_after_hit_witness :
  canAttack (fst (takeDamage 1 100 (snd spawned_hostile))) = false
  /\ canAttack (heal 30 (fst (takeDamage 1 100 (snd spawned_hostile))))
     = true.
Proof.
  destruct (X15_heal_after_hit 1 100 30 (snd spawned_hostile))
    as (_ & Hdown & _ & _ & _ & Hup).
  - simpl. unfold DEFAULT_health. lra.
  - lra.
  - simpl. unfold DEFAULT_health. lra.
  - split; [exact Hdown|exact Hup].
Defined.

Lemma getDistanceTo_position (h : Heap) (this this' : NPCController)
    (target : NPCPosition) :
  position (npc this') = position (npc this) ->
  getDistanceTo h this' target = getDistanceTo h this target.
Proof. unfold getDistanceTo. by intros ->. Qed.

Lemma getDistanceTo_nonneg (h : Heap) (this : NPCController)
    (target : NPCPosition) :
  0 <= getDistanceTo h this target.
Proof. unfold getDistanceTo. apply sqrt_pos. Qed.

Lemma deref_write_same (r : ref) (p : NPCPosition) (h : Heap) :
  deref (write_position r p h) r = p.
Proof. unfold deref, write_position. simpl. by rewrite lookup_insert_eq. Qed.

Lemma deref_write_other (r r' : ref) (p : NPCPosition) (h : Heap) :
  r <> r' -> deref (write_position r p h) r' = deref h r'.
Proof.
  intros Hne. unfold deref, write_position. simpl.
  by rewrite lookup_insert_ne.
Qed.

(** [moveTowards] writes the actor's own position object and no
    other. *)
Lemma moveTowards_positions (target : NPCPosition) (dt : number)
    (this : NPCController) (h : Heap) (l : ref) :
  l <> position (npc this) ->
  positions (moveTowards target dt this h) !! l = positions h !! l.
Proof.
  intros Hne. unfold moveTowards. case_bool_decide; [|done].
  simpl. by rewrite lookup_insert_ne.
Qed.

(** With nothing to cover, [moveTowards] leaves the coordinates as they
    are: the ratio is 0. *)
Lemma moveTowards_still (target : NPCPosition) (dt : number)
    (this : NPCController) (h : Heap) :
  speed (npc this) * dt * 60 = 0 ->
  deref (moveTowards target dt this h) (position (npc this))
  = deref h (position (npc this)).
Proof.
  intros Hz. unfold moveTowards. case_bool_decide as Hd; [|done].
  rewrite deref_write_same, Hz.
  assert (Hr : Rmin (0 / sqrt
                       ((x target - x (deref h (position (npc this))))
                        * (x target - x (deref h (position (npc this))))
                        + (y target - y (deref h (position (npc this))))
                          * (y target - y (deref h (position (npc this))))))
                 1 = 0).
  { unfold Rdiv. rewrite Rmult_0_l. unfold Rmin.
    destruct (Rle_dec _ _); lra. }
  rewrite Hr. destruct (deref h (position (npc this))) as [px py]. simpl.
  f_equal; lra.
Qed.

(** X16.  An [update] of an aggressive actor whose player is no farther
    than [detectionRange * 1.5] returns, and changes nothing of the
    actor but [lastUpdateTime]: it stays aggressive.  Within
    [attackRange] the actor holds its position: nothing on the heap
    changes.  Beyond it the actor moves, and the one object written is
    its own position object: every other position object and every
    route array is as before.  With a stride of 0 (an [update] in the
    same millisecond as the one before, or a speed of 0) the actor's
    coordinates are as before, too. *)
Theorem X16_aggressive_chase (now tnow : number) (player : NPCPosition)
    (this : NPCController) (h : Heap) :
  state (npc this) = aggressive ->
  ~ getDistanceTo h this player > detectionRange (npc this) * 1.5 ->
  returns (update now tnow player this h) = true
  /\ snd (final (update now tnow player this h))
     = set_lastUpdateTime now this
  /\ (getDistanceTo h this player <= attackRange (npc this) ->
      fst (final (update now tnow player this h)) = h)
  /\ arrays (fst (final (update now tnow player this h))) = arrays h
  /\ (forall l : ref,
        l <> position (npc this) ->
        positions (fst (final (update now tnow player this h))) !! l
        = positions h !! l)
  /\ (stride now this = 0 ->
      deref (fst (final (update now tnow player this h)))
        (position (npc this))
      = deref h (position (npc this))).
Proof.
  intros Hs Hnear.
  unfold update, handleAggressiveState. simpl. rewrite Hs.
  change (getDistanceTo h (set_lastUpdateTime now this) player)
    with (getDistanceTo h this player).
  rewrite bool_decide_eq_false_2 by done.
  case_bool_decide as Hout; simpl.
  - split; [done|]. split; [done|].
    split; [intros Hin; unfold Rgt in Hout; lra|].
    split; [apply moveTowards_arrays|].
    split.
    + intros l Hl. by apply moveTowards_positions.
    + intros Hz.
      apply (moveTowards_still player ((now - lastUpdateTime this) / 1000)
               (set_lastUpdateTime now this) h Hz).
  - done.
Qed.

Lemma X16_aggressive_chase_witness :
  fst (final (update 16 16 (mkPosition 30 40) aggressive_hostile
                (fst spawned_hostile)))
  = fst spawned_hostile.
Proof.
  assert (Hd : getDistanceTo (fst spawned_hostile) aggressive_hostile
                 (mkPosition 30 40) = 50).
  { unfold getDistanceTo.
    change (deref (fst spawned_hostile) (position (npc aggressive_hostile)))
      with (mkPosition 0 0).
    simpl. replace ((30 - 0) * (30 - 0) + (40 - 0) * (40 - 0))
      with (50 * 50) by lra.
    apply sqrt_square. lra. }
  destruct (X16_aggressive_chase 16 16 (mkPosition 30 40) aggressive_hostile
              (fst spawned_hostile)) as (_ & _ & Hhold & _).
  - unfold aggressive_hostile. rewrite takeDamage_npc. reflexivity.
  - rewrite Hd. unfold aggressive_hostile. rewrite takeDamage_npc. simpl.
    unfold DEFAULT_detectionRange, Rgt. lra.
  - apply Hhold. rewrite Hd. unfold aggressive_hostile.
    rewrite takeDamage_npc. simpl. unfold DEFAULT_attackRange. lra.
Defined.

(** X17.  An [update] of a patrolling actor whose player is out of
    [detectionRange] and whose waypoint index points into its route.
    It returns and stays in [patrol].  Within 5 units of the current
    waypoint the actor does not move, nothing on the heap changes, and
    it takes the next waypoint, after the last one the first again.
    Otherwise it keeps its waypoint and moves, and the one object
    written is its own position object: every other position object
    and every route array is as before; with a stride of 0 its
    coordinates are as before, too. *)
Theorem X17_patrol_step (now tnow : number) (player : NPCPosition)
    (this : NPCController) (h : Heap) (a t : ref) :
  state (npc this) = patrol ->
  ~ getDistanceTo h this player <= detectionRange (npc this) ->
  patrolPoints (npc this) = Some a ->
  deref_array h a !! currentPatrolIndex (npc this) = Some t ->
  returns (update now tnow player this h) = true
  /\ state_after (update now tnow player this h) = patrol
  /\ (getDistanceTo h this (deref h t) < 5 ->
      fst (final (update now tnow player this h)) = h
      /\ currentPatrolIndex (npc (snd (final (update now tnow player this h))))
         = ((currentPatrolIndex (npc this) + 1)
            mod length (deref_array h a))%nat
      /\ (S (currentPatrolIndex (npc this)) = length (deref_array h a) ->
          currentPatrolIndex
            (npc (snd (final (update now tnow player this h))))
          = 0%nat))
  /\ (~ getDistanceTo h this (deref h t) < 5 ->
      currentPatrolIndex (npc (snd (final (update now tnow player this h))))
      = currentPatrolIndex (npc this)
      /\ arrays (fst (final (update now tnow player this h))) = arrays h
      /\ (forall l : ref,
            l <> position (npc this) ->
            positions (fst (final (update now tnow player this h))) !! l
            = positions h !! l)
      /\ (stride now this = 0 ->
          deref (fst (final (update now tnow player this h)))
            (position (npc this))
          = deref h (position (npc this)))).
Proof.
  intros Hs Hfar Ha Ht.
  assert (Hlen : (length (deref_array h a) > 0)%nat).
  { apply lookup_lt_Some in Ht. lia. }
  split.
  { apply update_returns. intros a' Ha'. right.
    rewrite Ha in Ha'. injection Ha' as <-. by eapply lookup_lt_Some. }
  split.
  { rewrite update_state, Hs. by rewrite bool_decide_eq_false_2. }
  unfold update, handlePatrolState. simpl. rewrite Hs, Ha, Ht.
  change (getDistanceTo h (set_lastUpdateTime now this) player)
    with (getDistanceTo h this player).
  change (getDistanceTo h (set_lastUpdateTime now this) (deref h t))
    with (getDistanceTo h this (deref h t)).
  rewrite bool_decide_eq_false_2 by done.
  rewrite bool_decide_eq_true_2 by done.
  split.
  - intros Hclose. rewrite bool_decide_eq_true_2 by done. simpl.
    split; [done|]. split; [done|].
    intros Hlast. replace (currentPatrolIndex (npc this) + 1)%nat
      with (length (deref_array h a)) by lia.
    apply Nat.Div0.mod_same.
  - intros Hwalk. rewrite bool_decide_eq_false_2 by done. simpl.
    split; [done|]. split; [apply moveTowards_arrays|]. split.
    + intros l Hl. by apply moveTowards_positions.
    + intros Hz.
      apply (moveTowards_still (deref h t)
               ((now - lastUpdateTime this) / 1000)
               (set_lastUpdateTime now this) h Hz).
Qed.

Lemma far_player_out_of_range :
  ~ sqrt ((1000 - 0) * (1000 - 0) + (1000 - 0) * (1000 - 0)) <= 200.
Proof.
  intros Hle.
  assert (Hlt : sqrt (200 * 200)
                < sqrt ((1000 - 0) * (1000 - 0) + (1000 - 0) * (1000 - 0)))
    by (apply sqrt_lt_1; lra).
  rewrite sqrt_square in Hlt; lra.
Qed.

Lemma X17_patrol_step_witness :
  currentPatrolIndex
    (npc
       (snd
          (final
             (update 16 16 (mkPosition 1000 1000) (snd patrolling_guard)
                (fst patrolling_guard)))))
  = 1%nat.
Proof.
  destruct (X17_patrol_step 16 16 (mkPosition 1000 1000)
              (snd patrolling_guard) (fst patrolling_guard)
              (snd two_waypoints) 1%positive)
    as (_ & _ & Hnext & _).
  - reflexivity.
  - unfold getDistanceTo.
    change (deref (fst patrolling_guard)
              (position (npc (snd patrolling_guard))))
      with (mkPosition 0 0).
    apply far_player_out_of_range.
  - reflexivity.
  - reflexivity.
  - destruct Hnext as (_ & Hidx & _).
    + unfold getDistanceTo.
      change (deref (fst patrolling_guard)
                (position (npc (snd patrolling_guard))))
        with (mkPosition 0 0).
      change (deref (fst patrolling_guard) 1%positive)
        with (mkPosition 0 0).
      simpl. replace ((0 - 0) * (0 - 0) + (0 - 0) * (0 - 0)) with 0 by lra.
      rewrite sqrt_0. lra.
    + rewrite Hidx. reflexivity.
Defined.

(** X18.  [createPatrollingGuard] with a route that has a first
    waypoint: the guard is registered under the id, in [patrol], at the
    coordinates of that waypoint, in a position object of its own.  Its
    first [update], with the player out of its detection range of 200,
    does not move it: the guard is on its waypoint already, so the
    [update] takes the next waypoint (the same one again when the route
    has only one) and leaves the heap as it is. *)
Theorem X18_guard_first_update (now : number) (i : string) (route : ref)
    (npcs : NPCManager) (h : Heap) (first : ref) (rest : list ref) :
  deref_array h route = first :: rest ->
  exists (h' : Heap) (guard : NPCController),
    createPatrollingGuard now i route npcs h
    = Some (Returns (h', <[i := guard]> npcs) guard)
    /\ state (npc guard) = patrol
    /\ deref h' (position (npc guard)) = deref h first
    /\ (position (npc guard) ∉ dom (positions h))
    /\ (forall (now' tnow : number) (player : NPCPosition),
          ~ getDistanceTo h' guard player <= 200 ->
          returns (update now' tnow player guard h') = true
          /\ fst (final (update now' tnow player guard h')) = h'
          /\ state_after (update now' tnow player guard h') = patrol
          /\ currentPatrolIndex
               (npc (snd (final (update now' tnow player guard h'))))
             = (1 mod S (length rest))%nat).
Proof.
  intros Hroute.
  exists (fst (new_NPCController now i (deref h first) (guard_config route) h)),
         (snd (new_NPCController now i (deref h first) (guard_config route) h)).
  set (h' := fst (new_NPCController now i (deref h first) (guard_config route) h)).
  set (guard := snd (new_NPCController now i (deref h first) (guard_config route) h)).
  assert (Hpos : deref h' (position (npc guard)) = deref h first)
    by apply deref_write_same.
  assert (Harr : deref_array h' route = first :: rest) by exact Hroute.
  assert (Hfirst : deref h' first = deref h first).
  { unfold h'. simpl.
    destruct (decide (fresh (dom (positions h)) = first)) as [<-|Hne].
    - rewrite deref_write_same. unfold deref.
      by rewrite (not_elem_of_dom_1 _ _ (is_fresh (dom (positions h)))).
    - by apply deref_write_other. }
  split.
  { unfold createPatrollingGuard. rewrite Hroute. simpl.
    by rewrite spawnNPC_returns. }
  split; [done|]. split; [done|]. split; [apply is_fresh|].
  intros now' tnow player Hfar.
  assert (Hclose : getDistanceTo h' guard (deref h' first) < 5).
  { unfold getDistanceTo. rewrite Hpos, Hfirst.
    replace ((x (deref h first) - x (deref h first))
             * (x (deref h first) - x (deref h first))
             + (y (deref h first) - y (deref h first))
               * (y (deref h first) - y (deref h first)))
      with 0 by ring.
    rewrite sqrt_0. lra. }
  unfold update, handlePatrolState, state_after.
  cbn [lastUpdateTime set_lastUpdateTime npc state guard snd
       new_NPCController alloc_position guard_config config_patrolPoints
       truthy patrolPoints currentPatrolIndex].
  fold guard. fold h'.
  change (getDistanceTo h' (set_lastUpdateTime now' guard) player)
    with (getDistanceTo h' guard player).
  rewrite bool_decide_eq_false_2 by done.
  rewrite Harr. cbn [length lookup list_lookup].
  rewrite bool_decide_eq_true_2 by lia.
  change (getDistanceTo h' (set_lastUpdateTime now' guard) (deref h' first))
    with (getDistanceTo h' guard (deref h' first)).
  rewrite bool_decide_eq_true_2 by done. done.
Qed.

Lemma X18_guard_first_update_witness :
  exists (h' : Heap) (guard : NPCController),
    createPatrollingGuard 0 "guard_1" (snd two_waypoints) ∅
      (fst two_waypoints)
    = Some (Returns (h', <["guard_1"%string := guard]> ∅) guard)
    /\ deref h' (position (npc guard)) = mkPosition 0 0.
Proof.
  destruct (X18_guard_first_update 0 "guard_1" (snd two_waypoints) ∅
              (fst two_waypoints) 1%positive [2%positive])
    as (h' & guard & Hspawn & _ & Hpos & _).
  - reflexivity.
  - exists h', guard. split; [exact Hspawn|]. rewrite Hpos. reflexivity.
Defined.

(** The throw of [update] can be reached, from outside the actor: the
    guard has taken its second waypoint, the caller cuts the route
    array, which the guard shares, down to one waypoint, and the next
    [update] reads past its end. *)
Lemma update_throws_on_cut_route :
  returns
    (update 32 32 (mkPosition 1000 1000)
       (set_npc (set_currentPatrolIndex 1 (npc (snd patrolling_guard)))
          (snd patrolling_guard))
       (perform (AssignElements (snd two_waypoints) [1%positive])
          (fst patrolling_guard)))
  = false.
Proof.
  unfold update, handlePatrolState.
  cbn [lastUpdateTime set_lastUpdateTime npc set_npc state
       set_currentPatrolIndex patrolPoints currentPatrolIndex].
  change (state (npc (snd patrolling_guard))) with patrol.
  cbn match.
  rewrite bool_decide_eq_false_2.
  - reflexivity.
  - unfold getDistanceTo. cbn [npc set_lastUpdateTime set_npc position
                               set_currentPatrolIndex].
    change (deref _ (position (npc (snd patrolling_guard))))
      with (mkPosition 0 0).
    apply far_player_out_of_range.
Qed.

(** X26.  [getPosition()] hands out a copy: a new position object that
    holds the coordinates of the actor, and nothing a caller assigns to
    it changes the actor (its fields, its coordinates, its route), for
    an actor whose objects are on the heap. *)
Theorem X26_getPosition_is_a_copy (this : NPCController) (h : Heap)
    (m : Mutation) :
  allocated h this ->
  on_position (snd (getPosition this h)) m ->
  (snd (getPosition this h) ∉ dom (positions h))
  /\ deref (fst (getPosition this h)) (snd (getPosition this h))
     = deref h (position (npc this))
  /\ internal_state (perform m (fst (getPosition this h))) this
     = internal_state h this.
Proof.
  intros Halloc Hm.
  destruct (getPosition_copies this h) as [Hfresh Hcopy].
  split; [done|]. split; [done|].
  by apply getPosition_defensive.
Qed.

Lemma X26_getPosition_is_a_copy_witness :
  internal_state
    (perform
       (AssignX (snd (getPosition (snd spawned_hostile) (fst spawned_hostile)))
          999)
       (fst (getPosition (snd spawned_hostile) (fst spawned_hostile))))
    (snd spawned_hostile)
  = internal_state (fst spawned_hostile) (snd spawned_hostile).
Proof.
  destruct (X26_getPosition_is_a_copy (snd spawned_hostile)
              (fst spawned_hostile)
              (AssignX
                 (snd (getPosition (snd spawned_hostile) (fst spawned_hostile)))
                 999))
    as (_ & _ & Hsame).
  - split.
    + apply elem_of_dom. eexists. reflexivity.
    + intros a t Ha. discriminate Ha.
  - reflexivity.
  - exact Hsame.
Defined.

(** ** The registry *)

Lemma elem_of_getAllNPCs (n : NPC) (npcs : NPCManager) :
  n ∈ getAllNPCs npcs
  <-> exists (i : string) (c : NPCController),
        npcs !! i = Some c /\ n = getNPC c.
Proof.
  unfold getAllNPCs, controllers. rewrite list_elem_of_fmap. split.
  - intros (c & -> & Hc). apply list_elem_of_fmap in Hc as ([i c'] & -> & Hic).
    apply elem_of_map_to_list in Hic. by exists i, c'.
  - intros (i & c & Hic & ->). exists c. split; [done|].
    apply list_elem_of_fmap. exists (i, c). split; [done|].
    by apply elem_of_map_to_list.
Qed.

(** X19.  [removeNPC] returns true exactly when the id was in the
    registry; afterwards the id is not in it, every other id holds what
    it held, and removing an id that is not there changes nothing. *)
Theorem X19_removeNPC (i : string) (npcs : NPCManager) :
  (snd (removeNPC i npcs) = true <-> is_Some (npcs !! i))
  /\ manager_getNPC i (fst (removeNPC i npcs)) = None
  /\ (forall j : string,
        j <> i ->
        manager_getNPC j (fst (removeNPC i npcs)) = manager_getNPC j npcs)
  /\ (npcs !! i = None -> removeNPC i npcs = (npcs, false)).
Proof.
  unfold removeNPC, manager_getNPC. simpl.
  split; [apply bool_decide_eq_true|].
  split; [apply lookup_delete_eq|].
  split; [intros j Hj; by apply lookup_delete_ne|].
  intros Hnone. rewrite delete_id by done.
  rewrite bool_decide_eq_false_2; [done|].
  rewrite Hnone. by intros [? ?].
Qed.

Lemma X19_removeNPC_witness :
  removeNPC "enemy_7" registry_with_hostile = (registry_with_hostile, false)
  /\ snd (removeNPC "enemy_0" registry_with_hostile) = true.
Proof.
  destruct (X19_removeNPC "enemy_7" registry_with_hostile)
    as (_ & _ & _ & Habsent).
  destruct (X19_removeNPC "enemy_0" registry_with_hostile)
    as (Hpresent & _).
  split.
  - apply Habsent. reflexivity.
  - apply Hpresent; by eexists.
Defined.

(** X20.  Spawning under an id and then removing that id: the removal
    returns true and the registry is the one before the spawn without
    the id.  For an id that was free the registry is back as it was;
    for an id that was taken the actor that was there is gone as
    well. *)
Theorem X20_spawn_then_remove (now : number) (i : string)
    (pos : NPCPosition) (config : NPCConfig) (npcs : NPCManager)
    (h : Heap) :
  removeNPC i (snd (final (spawnNPC now i pos config npcs h)))
  = (delete i npcs, true)
  /\ (npcs !! i = None ->
      fst (removeNPC i (snd (final (spawnNPC now i pos config npcs h))))
      = npcs)
  /\ (forall old : NPCController,
        npcs !! i = Some old ->
        manager_getNPC i
          (fst (removeNPC i (snd (final (spawnNPC now i pos config npcs h)))))
        = None).
Proof.
  rewrite spawnNPC_returns. unfold removeNPC, manager_getNPC. simpl.
  rewrite delete_insert_eq, lookup_insert_eq.
  split; [|split].
  - f_equal; try (apply bool_decide_eq_true; by eexists).
  - intros Hnone. by apply delete_id.
  - intros old _. apply lookup_delete_eq.
Qed.

Lemma X20_spawn_then_remove_witness :
  fst
    (removeNPC "enemy_1"
       (snd
          (final
             (spawnNPC 5 "enemy_1" (mkPosition 9 9) hostile_config
                registry_with_hostile (fst spawned_hostile)))))
  = registry_with_hostile.
Proof.
  destruct (X20_spawn_then_remove 5 "enemy_1" (mkPosition 9 9)
              hostile_config registry_with_hostile (fst spawned_hostile))
    as (_ & Hfree & _).
  apply Hfree. reflexivity.
Defined.

(** X21.  The queries of the registry.  [getAllNPCs] returns one
    snapshot for each actor registered; [getActiveNPCs] returns those
    of them with health above 0; [getAggressiveNPCs] returns the
    snapshots of exactly the actors that can attack, so what it returns
    is among what [getActiveNPCs] returns. *)
Theorem X21_registry_queries (n : NPC) (npcs : NPCManager) :
  length (getAllNPCs npcs) = size npcs
  /\ (n ∈ getActiveNPCs npcs <-> n ∈ getAllNPCs npcs /\ health n > 0)
  /\ (n ∈ getAggressiveNPCs npcs
      <-> exists (i : string) (c : NPCController),
            npcs !! i = Some c /\ n = getNPC c /\ canAttack c = true)
  /\ (n ∈ getAggressiveNPCs npcs -> n ∈ getActiveNPCs npcs).
Proof.
  split.
  { unfold getAllNPCs, controllers. rewrite !length_fmap.
    apply length_map_to_list. }
  split.
  { unfold getActiveNPCs. rewrite list_elem_of_filter. tauto. }
  split.
  - unfold getAggressiveNPCs. rewrite list_elem_of_filter.
    rewrite elem_of_getAllNPCs. unfold canAttack. split.
    + intros [[Hs Hh] (i & c & Hic & ->)]. exists i, c.
      split; [done|]. split; [done|]. unfold getNPC in *.
      apply andb_true_iff. by rewrite !bool_decide_eq_true.
    + intros (i & c & Hic & -> & Hcan).
      apply andb_true_iff in Hcan as [Hs Hh].
      apply bool_decide_eq_true in Hs, Hh.
      split; [done|]. by exists i, c.
  - unfold getAggressiveNPCs, getActiveNPCs.
    rewrite !list_elem_of_filter. tauto.
Qed.

Lemma distance_from_getNPC (h : Heap) (pos : NPCPosition)
    (c : NPCController) :
  distance_from h pos (getNPC c) = getDistanceTo h c pos.
Proof.
  unfold distance_from, getDistanceTo, getNPC. f_equal. ring.
Qed.

(** X22.  [getNPCsInRange] returns the snapshots of the actors whose
    distance from the point is at most the range, the boundary included
    and whatever their health; with a negative range it returns
    nothing; a larger range returns at least what a smaller one does.
    Its distance is the one the actors measure: an actor is returned
    for the range [attackRange] around the player exactly when its own
    [isInAttackRange] says so. *)
Theorem X22_getNPCsInRange (h : Heap) (pos : NPCPosition) (range : number)
    (npcs : NPCManager) :
  (forall n : NPC,
     n ∈ getNPCsInRange h pos range npcs
     <-> n ∈ getAllNPCs npcs /\ distance_from h pos n <= range)
  /\ (range < 0 -> getNPCsInRange h pos range npcs = [])
  /\ (forall (range' : number) (n : NPC),
        range <= range' ->
        n ∈ getNPCsInRange h pos range npcs ->
        n ∈ getNPCsInRange h pos range' npcs)
  /\ (forall (i : string) (c : NPCController),
        npcs !! i = Some c ->
        (getNPC c ∈ getNPCsInRange h pos (attackRange (npc c)) npcs
         <-> isInAttackRange h c pos = true)).
Proof.
  assert (Hin : forall r n,
            n ∈ getNPCsInRange h pos r npcs
            <-> n ∈ getAllNPCs npcs /\ distance_from h pos n <= r).
  { intros r n. unfold getNPCsInRange. rewrite list_elem_of_filter. tauto. }
  split; [apply Hin|]. split; [|split].
  - intros Hneg. apply elem_of_nil_inv. intros n Hn.
    apply Hin in Hn as [_ Hle].
    assert (0 <= distance_from h pos n) by apply sqrt_pos. lra.
  - intros range' n Hle Hn. apply Hin in Hn as [Hall Hd].
    apply Hin. split; [done|lra].
  - intros i c Hic. rewrite Hin. unfold isInAttackRange.
    rewrite bool_decide_eq_true, distance_from_getNPC. split.
    + by intros [_ Hd].
    + intros Hd. split; [|done]. apply elem_of_getAllNPCs. by exists i, c.
Qed.

Lemma X22_getNPCsInRange_witness :
  getNPCsInRange (fst spawned_hostile) (mkPosition 0 0) (-1)
    registry_with_hostile
  = [].
Proof.
  destruct (X22_getNPCsInRange (fst spawned_hostile) (mkPosition 0 0) (-1)
              registry_with_hostile) as (_ & Hneg & _).
  apply Hneg. lra.
Defined.

(** ** The squad *)

Lemma string_length_app (a b : string) :
  String.length (a +:+ b) = (String.length a + String.length b)%nat.
Proof. induction a as [|c a IH]; simpl; [done|]. by rewrite IH. Qed.

Lemma string_app_tail (a b u v : string) :
  String.length u = String.length v -> a +:+ u = b +:+ v -> u = v.
Proof.
  revert b. induction a as [|c a IH]; intros b Hlen Heq.
  - destruct b as [|d b]; [done|].
    apply (f_equal String.length) in Heq.
    rewrite !string_length_app in Heq. simpl in Heq. lia.
  - destruct b as [|d b].
    + apply (f_equal String.length) in Heq.
      rewrite !string_length_app in Heq. simpl in Heq. lia.
    + injection Heq as _ Heq. by apply (IH b).
Qed.

(** Two members of a squad never share an id, whatever the clock
    says. *)
Lemma squad_id_ne (d d' : SquadDraws) (i j : nat) :
  (i < 3)%nat -> (j < 3)%nat -> i <> j -> squad_id d i <> squad_id d' j.
Proof.
  intros Hi Hj Hne Heq. unfold squad_id in Heq.
  apply (string_app_tail "enemy_" "enemy_") in Heq.
  - apply string_app_tail in Heq.
    + destruct i as [|[|[|i]]], j as [|[|[|j]]]; try lia; discriminate.
    + destruct i as [|[|[|i]]], j as [|[|[|j]]]; try lia; reflexivity.
  - apply (f_equal String.length) in Heq.
    rewrite !string_length_app in Heq. rewrite !string_length_app.
    lia.
Qed.

Lemma written_in_dom (r : ref) (p : NPCPosition) (h : Heap) :
  r ∈ dom (positions (write_position r p h)).
Proof. apply elem_of_dom. simpl. rewrite lookup_insert_eq. by eexists. Qed.

Lemma write_keeps_dom (r l : ref) (p : NPCPosition) (h : Heap) :
  l ∈ dom (positions h) -> l ∈ dom (positions (write_position r p h)).
Proof.
  intros Hl. apply elem_of_dom. simpl.
  destruct (decide (r = l)) as [->|Hne].
  - rewrite lookup_insert_eq. by eexists.
  - rewrite lookup_insert_ne by done. by apply elem_of_dom.
Qed.

Lemma fresh_ne (l : ref) (h : Heap) :
  l ∈ dom (positions h) -> fresh (dom (positions h)) <> l.
Proof. intros Hl Heq. apply (is_fresh (dom (positions h))). by rewrite Heq. Qed.

(** The first member of a squad stands 50 units east of the center:
    its angle is 0. *)
Lemma squad_position_first (center : NPCPosition) :
  squad_position center 0 = mkPosition (x center + 50) (y center).
Proof.
  unfold squad_position. cbv zeta.
  replace (INR 0 / 3 * PI * 2) with 0 by (simpl; lra).
  rewrite cos_0, sin_0. f_equal; lra.
Qed.

(** X30.  [createEnemySquad], whatever the registry, the heap, the
    center and the clock, and for draws of [Math.random()] in [0, 1):
    it returns, and the registry then holds three new actors under
    three ids that differ from each other, so that no member replaces
    another.  Each member is idle with no patrol route, in a position
    object of its own that holds the coordinates computed for it (for
    the first member, 50 units east of the center), has full health
    from 50 to 100, and a speed from 1.5 to 2.5.  Ids other than the
    three hold what they held. *)
Theorem X30_createEnemySquad (draws : nat -> SquadDraws)
    (center : NPCPosition) (npcs : NPCManager) (h : Heap) :
  (forall i : nat,
     0 <= draw_health (draws i) < 1 /\ 0 <= draw_speed (draws i) < 1) ->
  returns (createEnemySquad draws center npcs h) = true
  /\ (forall i : nat,
        (i < 3)%nat ->
        exists c : NPCController,
          snd (final (createEnemySquad draws center npcs h))
            !! squad_id (draws i) i
          = Some c
          /\ state (npc c) = idle
          /\ patrolPoints (npc c) = None
          /\ health (npc c) = maxHealth (npc c)
          /\ 50 <= health (npc c) <= 100
          /\ 1.5 <= speed (npc c) <= 2.5
          /\ deref (fst (final (createEnemySquad draws center npcs h)))
               (position (npc c))
             = squad_position center i
          /\ (position (npc c) ∉ dom (positions h)))
  /\ (forall i j : nat,
        (i < 3)%nat -> (j < 3)%nat -> i <> j ->
        squad_id (draws i) i <> squad_id (draws j) j)
  /\ squad_position center 0 = mkPosition (x center + 50) (y center)
  /\ (forall j : string,
        (forall i : nat, (i < 3)%nat -> j <> squad_id (draws i) i) ->
        snd (final (createEnemySquad draws center npcs h)) !! j = npcs !! j).
Proof.
  intros Hdraws.
  unfold createEnemySquad, spawn_members.
  rewrite !spawnNPC_returns.
  cbn [fst snd final returns new_NPCController alloc_position].
  set (r0 := fresh (dom (positions h))).
  set (h1 := write_position r0 (squad_position center 0) h).
  set (r1 := fresh (dom (positions h1))).
  set (h2 := write_position r1 (squad_position center 1) h1).
  set (r2 := fresh (dom (positions h2))).
  set (h3 := write_position r2 (squad_position center 2) h2).
  assert (H10 : r1 <> r0) by (apply fresh_ne, written_in_dom).
  assert (H21 : r2 <> r1) by (apply fresh_ne, written_in_dom).
  assert (H20 : r2 <> r0)
    by (apply fresh_ne, write_keeps_dom, written_in_dom).
  assert (Hp0 : deref h3 r0 = squad_position center 0).
  { unfold h3, h2. rewrite !deref_write_other by done.
    apply deref_write_same. }
  assert (Hp1 : deref h3 r1 = squad_position center 1).
  { unfold h3. rewrite deref_write_other by done. apply deref_write_same. }
  assert (Hp2 : deref h3 r2 = squad_position center 2)
    by apply deref_write_same.
  assert (Hn0 : r0 ∉ dom (positions h)) by apply is_fresh.
  assert (Hn1 : r1 ∉ dom (positions h)).
  { intros Hin. apply (is_fresh (dom (positions h1))).
    by apply write_keeps_dom. }
  assert (Hn2 : r2 ∉ dom (positions h)).
  { intros Hin. apply (is_fresh (dom (positions h2))).
    by apply write_keeps_dom, write_keeps_dom. }
  split; [done|]. split; [|split; [|split]].
  - intros i Hi.
    destruct (Hdraws i) as [Hrh Hrs].
    assert (Hi3 : i = 0%nat \/ i = 1%nat \/ i = 2%nat) by lia.
    destruct Hi3 as [-> | [-> | ->]]; eexists; split.
    + rewrite !lookup_insert_ne by (apply squad_id_ne; lia).
      apply lookup_insert_eq.
    + split; [reflexivity|]. split; [reflexivity|].
      split; [reflexivity|]. split; [simpl; lra|]. split; [simpl; lra|].
      cbn [position npc]. split; [exact Hp0|exact Hn0].
    + rewrite lookup_insert_ne by (apply squad_id_ne; lia).
      apply lookup_insert_eq.
    + split; [reflexivity|]. split; [reflexivity|].
      split; [reflexivity|]. split; [simpl; lra|]. split; [simpl; lra|].
      cbn [position npc]. split; [exact Hp1|exact Hn1].
    + apply lookup_insert_eq.
    + split; [reflexivity|]. split; [reflexivity|].
      split; [reflexivity|]. split; [simpl; lra|]. split; [simpl; lra|].
      cbn [position npc]. split; [exact Hp2|exact Hn2].
  - intros i j Hi Hj Hne. by apply squad_id_ne.
  - apply squad_position_first.
  - intros j Hj.
    rewrite !lookup_insert_ne; [done| | |];
      apply not_eq_sym, Hj; lia.
Qed.

Lemma X30_createEnemySquad_witness :
  returns (createEnemySquad same_draws (mkPosition 10 20) ∅ empty_heap)
  = true.
Proof.
  destruct (X30_createEnemySquad same_draws (mkPosition 10 20) ∅ empty_heap)
    as (Hret & _).
  - intros i. simpl. lra.
  - exact Hret.
Defined.

End NPCSpec.
